(** * Prospect-to-lead workflow orchestrator: reference resolution,
      graph construction and sequential execution

    Shallow embedding of [langgraph_builder.py] (class
    [LangGraphWorkflowBuilder], with the lines its logger writes to the
    console), of [BaseAgent.validate_output] from [agents/__init__.py] and
    of the helpers of [utils/validators.py] and [utils/tool_loader.py], with
    the properties of the specification stated over it. *)

From Stdlib Require Import Ascii String ZArith Lia.
From stdpp Require Import gmap strings list fin_maps.

Local Open Scope string_scope.
Local Open Scope list_scope.
Local Open Scope Z_scope.

(** ** Python values

    Containers are objects with an identity: a value is either an immutable
    scalar or a reference into the heap, so that "the same list" and "an
    equal list" are different statements. *)

Definition loc := nat.

Inductive pyval : Type :=
  | VNone
  | VBool (b : bool)
  | VInt (n : Z)
  | VStr (s : string)
  | VRef (l : loc).

Inductive object : Type :=
  | ODict (items : gmap string pyval)
  | OList (items : list pyval).

#[global] Instance pyval_eq_dec : EqDecision pyval.
Proof. solve_decision. Defined.

(** The part of the interpreter state a capability can reach: the heap of
    container objects, and the standard output as the list of the texts
    written to it, one entry per call of [print] and one per record the
    console handler of the logger writes (see [log] below). *)
Record world : Type := World {
  heap : list object;
  stdout : list string
}.

(** Exceptions.  The first five are Python's own classes as the sources raise
    them; [DuplicateStepIdError] (the spec's name) and [GraphRecursionError]
    are raised by the graph library, and [CapabilityError] stands for whatever
    a capability's business logic raises.  [EmptySpecError] is the name the
    spec gives to the failure on an empty step list: the sources define no
    such class and nothing below raises it. *)
Inductive exn : Type :=
  | AttributeError
  | TypeError
  | IndexError
  | KeyError (key : string)
  | ValueError (msg : string)
  | DuplicateStepIdError (node : string)
  | EmptySpecError
  | GraphRecursionError
  | CapabilityError (msg : string).

Inductive outcome (A : Type) : Type :=
  | Ok (a : A)
  | Raise (e : exn).
Arguments Ok {A} a.
Arguments Raise {A} e.

(** ** State-and-exception monad

    A raise keeps the state reached so far: Python does not undo the
    mutations made before an exception. *)
Definition M (S A : Type) : Type := S -> outcome A * S.

Definition ret {S A} (a : A) : M S A := fun s => (Ok a, s).

Definition raise {S A} (e : exn) : M S A := fun s => (Raise e, s).

Definition bind {S A B} (c : M S A) (k : A -> M S B) : M S B :=
  fun s =>
    match c s with
    | (Ok a, s') => k a s'
    | (Raise e, s') => (Raise e, s')
    end.

Definition try_except {S A} (c : M S A) (handler : exn -> M S A) : M S A :=
  fun s =>
    match c s with
    | (Ok a, s') => (Ok a, s')
    | (Raise e, s') => handler e s'
    end.

Declare Scope py_scope.
Delimit Scope py_scope with py.
Notation "x <- c ;; k" := (bind c (fun x => k))
  (at level 100, c at next level, right associativity) : py_scope.
Notation "c ;;; k" := (bind c (fun _ => k))
  (at level 100, right associativity) : py_scope.
Local Open Scope py_scope.

(** ** Heap primitives *)

Definition alloc (o : object) : M world pyval :=
  fun w => (Ok (VRef (length (heap w))),
            {| heap := heap w ++ [o]; stdout := stdout w |}).

Definition print (line : string) : M world unit :=
  fun w => (Ok tt, {| heap := heap w; stdout := stdout w ++ [line] |}).

Definition deref (h : list object) (v : pyval) : option object :=
  match v with
  | VRef l => h !! l
  | _ => None
  end.

(** [isinstance(v, dict)] *)
Definition is_dict (h : list object) (v : pyval) : bool :=
  match deref h v with
  | Some (ODict _) => true
  | _ => false
  end.

(** [result.get(part, {})].  Only a dict has a [get] method among the values
    modelled; anything else raises [AttributeError].  The default [{}] is a
    new object; it is allocated here when it is returned (on a hit Python
    builds it too and drops it at once, unreachable). *)
Definition dict_get_default (result : pyval) (part : string) : M world pyval :=
  fun w =>
    match deref (heap w) result with
    | Some (ODict items) =>
        match items !! part with
        | Some v => (Ok v, w)
        | None => alloc (ODict ∅) w
        end
    | _ => (Raise AttributeError, w)
    end.

(** ** The pattern [\{\{([^}]+)\}\}] and [str.split('.')] *)

Definition close_brace : Ascii.ascii := "}"%char.
Definition open_brace : Ascii.ascii := "{"%char.
Definition dot : Ascii.ascii := "."%char.

(** The longest prefix without ["}"], and what follows it: what the greedy
    [[^}]+] consumes. *)
Fixpoint span_not_close (s : string) : string * string :=
  match s with
  | EmptyString => (EmptyString, EmptyString)
  | String c t =>
      if Ascii.eqb c close_brace then (EmptyString, s)
      else let (g, r) := span_not_close t in (String c g, r)
  end.

(** A match of the pattern anchored at the start of [s]; the result is group 1.
    After the greedy class stops, the next character is ["}"] or the end of
    the string, so giving characters back can never make ["}}"] match. *)
Definition match_here (s : string) : option string :=
  match s with
  | String c1 (String c2 rest) =>
      if Ascii.eqb c1 open_brace && Ascii.eqb c2 open_brace then
        match span_not_close rest with
        | (EmptyString, _) => None
        | (g, String d1 (String d2 _)) =>
            if Ascii.eqb d1 close_brace && Ascii.eqb d2 close_brace
            then Some g else None
        | _ => None
        end
      else None
  | _ => None
  end.

(** [re.search(pattern, value)] followed by [match.group(1)]: the leftmost
    match. *)
Fixpoint re_search (value : string) : option string :=
  match match_here value with
  | Some g => Some g
  | None =>
      match value with
      | EmptyString => None
      | String _ t => re_search t
      end
  end.

(** [ref_path.split('.')]: never empty, so that [parts[0]] always exists;
    adjacent dots give empty segments. *)
Fixpoint split_dot (s : string) : list string :=
  match s with
  | EmptyString => [EmptyString]
  | String c t =>
      if Ascii.eqb c dot then EmptyString :: split_dot t
      else match split_dot t with
           | seg :: segs => String c seg :: segs
           | [] => [String c EmptyString]
           end
  end.

(** ** Input templates

    A step's [inputs] is freshly parsed JSON: a tree without sharing whose
    containers are rebuilt by the comprehensions of [resolve_value], so only
    its shape is observable. *)
#[warnings="-register-all"]
Inductive template : Type :=
  | TNone
  | TBool (b : bool)
  | TInt (n : Z)
  | TStr (s : string)
  | TDict (items : list (string * template))
  | TList (items : list template).

(** ** [_resolve_inputs] *)

Section Resolve.
Variable step_outputs : gmap string pyval.
Variable workflow_config : pyval.

(** [for part in parts[1:]: result = result.get(part, {})] *)
Fixpoint config_walk (result : pyval) (parts : list string) : M world pyval :=
  match parts with
  | [] => ret result
  | part :: rest =>
      r <- dict_get_default result part ;;
      config_walk r rest
  end.

(** [for part in parts[2:]: if isinstance(result, dict): result = result.get(part, {})] *)
Fixpoint step_walk (result : pyval) (parts : list string) : M world pyval :=
  match parts with
  | [] => ret result
  | part :: rest =>
      fun w =>
        if is_dict (heap w) result
        then (r <- dict_get_default result part ;; step_walk r rest) w
        else step_walk result rest w
  end.

(** The string branch of [resolve_value]. *)
Definition resolve_str (value : string) : M world pyval :=
  match re_search value with
  | Some ref_path =>
      let parts := split_dot ref_path in
      if bool_decide (head parts = Some "config") then
        config_walk workflow_config (drop 1 parts)
      else if bool_decide (3 <= length parts)%nat then
        let step_id := default "" (head parts) in
        match step_outputs !! step_id with
        | Some result => step_walk result (drop 2 parts)
        | None => ret (VStr value)
        end
      else ret (VStr value)
  | None => ret (VStr value)
  end.

(** Dict and list comprehensions evaluate their items in order and then
    build one new object. *)
Fixpoint resolve_value (value : template) : M world pyval :=
  match value with
  | TStr s => resolve_str s
  | TDict items =>
      let fix resolve_items (acc : gmap string pyval)
          (kvs : list (string * template)) : M world (gmap string pyval) :=
        match kvs with
        | [] => ret acc
        | (k, v) :: rest =>
            r <- resolve_value v ;;
            resolve_items (<[k := r]> acc) rest
        end in
      m <- resolve_items ∅ items ;;
      alloc (ODict m)
  | TList items =>
      let fix resolve_elems (vs : list template) : M world (list pyval) :=
        match vs with
        | [] => ret []
        | v :: rest =>
            r <- resolve_value v ;;
            rs <- resolve_elems rest ;;
            ret (r :: rs)
        end in
      rs <- resolve_elems items ;;
      alloc (OList rs)
  | TNone => ret VNone
  | TBool b => ret (VBool b)
  | TInt n => ret (VInt n)
  end.

Definition _resolve_inputs (input_config : template) : M world pyval :=
  resolve_value input_config.
End Resolve.

(** ** Workflow configuration (what [validate_workflow_json] lets through) *)

Record StepSpec : Type := {
  id : string;
  agent : string;
  inputs : list (string * template);
  instructions : string;
  tools : list template;
  output_schema : list (string * template)
}.

(** [config] is the loaded configuration dict, an object of the heap (its
    values are handed out by reference), or [None] when the key is absent. *)
Record WorkflowConfig : Type := {
  workflow_name : string;
  description : string;
  config : option pyval;
  steps : list StepSpec
}.

Record WorkflowState : Type := {
  messages : list string;
  workflow_data : WorkflowConfig;
  current_step : string;
  step_outputs : gmap string pyval
}.

(** The orchestrator's state: the [state] dict handed from node to node, which
    no capability can reach, and the world it shares with the capabilities. *)
Record run : Type := {
  state : WorkflowState;
  env : world
}.

Definition lift_world {A} (c : M world A) : M run A :=
  fun r => let (o, w') := c (env r) in (o, {| state := state r; env := w' |}).

Definition get_state : M run WorkflowState := fun r => (Ok (state r), r).

Definition set_state (st : WorkflowState) : M run unit :=
  fun r => (Ok tt, {| state := st; env := env r |}).

(** [state['step_outputs'][step_id] = output]: a plain dict assignment. *)
Definition record (step_id : string) (output : pyval) : M run unit :=
  fun r =>
    (Ok tt,
     {| state := {| messages := messages (state r);
                    workflow_data := workflow_data (state r);
                    current_step := current_step (state r);
                    step_outputs := <[step_id := output]> (step_outputs (state r)) |};
        env := env r |}).

(** [state['current_step'] = step_id] *)
Definition advance (step_id : string) : M run unit :=
  fun r =>
    (Ok tt,
     {| state := {| messages := messages (state r);
                    workflow_data := workflow_data (state r);
                    current_step := step_id;
                    step_outputs := step_outputs (state r) |};
        env := env r |}).

(** ** [BaseAgent.validate_output] *)

(** [needle in haystack] for strings. *)
Fixpoint is_substring (needle haystack : string) : bool :=
  String.prefix needle haystack ||
  match haystack with
  | EmptyString => false
  | String _ t => is_substring needle t
  end.

(** [key in output]: key membership for a dict, element membership for a list,
    substring test for a string, [TypeError] for the other values. *)
Definition py_contains (output : pyval) (key : string) : M world bool :=
  fun w =>
    match output with
    | VStr s => (Ok (is_substring key s), w)
    | VRef l =>
        match heap w !! l with
        | Some (ODict items) => (Ok (bool_decide (is_Some (items !! key))), w)
        | Some (OList items) => (Ok (bool_decide (VStr key ∈ items)), w)
        | None => (Raise TypeError, w)
        end
    | _ => (Raise TypeError, w)
    end.

Definition missing_key_warning (key : string) : string :=
  "⚠️  Warning: Missing expected output key: " +:+ key.

Fixpoint validate_output_keys (keys : list string) (output : pyval) : M world bool :=
  match keys with
  | [] => ret true
  | key :: rest =>
      present <- py_contains output key ;;
      if present then validate_output_keys rest output
      else (print (missing_key_warning key) ;;; ret false)
  end.

Definition validate_output (output_schema : list (string * template))
    (output : pyval) : M world bool :=
  validate_output_keys (map fst output_schema) output.

(** ** Capabilities

    The seven agent classes share one shape of [execute]: business logic that
    computes the entries of the [output] dict, the dict literal itself,
    [self.validate_output(output)] with its result dropped, [return output].
    The business logic is a parameter. *)
Definition agent_body : Type :=
  StepSpec -> pyval -> pyval -> M world (gmap string pyval).

Definition execute_agent (body : agent_body) (step : StepSpec)
    (tools_config inputs : pyval) : M world pyval :=
  items <- body step tools_config inputs ;;
  output <- alloc (ODict items) ;;
  validate_output (output_schema step) output ;;;
  ret output.

(** ** The graph library

    [StateGraph], its methods and the [END] marker belong to the langgraph
    package, which is not among the sources; [build_graph] and [execute] only
    call them.  They are modelled from what the spec says of the graph. *)

(** Modelled from the spec: the target of an edge is a node or [TERMINAL],
    "a sentinel end marker, not a real node" ([END] in the source). *)
Inductive target : Type :=
  | Node (name : string)
  | END.

(** Modelled from the spec: the graph of the langgraph package, "a node/edge
    graph with a single entry point and a terminal sentinel"; nodes are keyed
    by name and carry their node function. *)
Record StateGraph (N : Type) : Type := {
  nodes : list (string * N);
  entry_point : option string;
  edges : list (string * target)
}.
Arguments nodes {N} _.
Arguments entry_point {N} _.
Arguments edges {N} _.

(** Modelled from the spec: [StateGraph(WorkflowState)], a graph without
    nodes or edges. *)
Definition new_graph {N} : StateGraph N :=
  {| nodes := []; entry_point := None; edges := [] |}.

(** Modelled from the spec: [add_node] "creates one node ... keyed by its
    id; fails with DuplicateStepIdError on a repeated id". *)
Definition add_node {N} (name : string) (fn : N) (g : StateGraph N)
    : outcome (StateGraph N) :=
  if bool_decide (name ∈ map fst (nodes g))
  then Raise (DuplicateStepIdError name)
  else Ok {| nodes := nodes g ++ [(name, fn)];
             entry_point := entry_point g;
             edges := edges g |}.

(** Modelled from the spec: [set_entry_point], "entry point is the id of
    [steps[0]]". *)
Definition set_entry_point {N} (name : string) (g : StateGraph N) : StateGraph N :=
  {| nodes := nodes g; entry_point := Some name; edges := edges g |}.

(** Modelled from the spec: [add_edge] "adds a directed edge". *)
Definition add_edge {N} (src : string) (dst : target) (g : StateGraph N)
    : StateGraph N :=
  {| nodes := nodes g; entry_point := entry_point g;
     edges := edges g ++ [(src, dst)] |}.

(** Modelled from the spec: [compile]; the compiled graph "is
    immutable/reusable across multiple runs" and keeps the nodes and edges
    it was given. *)
Definition compile {N} (g : StateGraph N) : StateGraph N := g.

(** The first entry of an association list under a key. *)
Fixpoint assoc {A} (name : string) (l : list (string * A)) : option A :=
  match l with
  | [] => None
  | (k, a) :: rest => if bool_decide (k = name) then Some a else assoc name rest
  end.

(** Modelled from the spec: the run of a compiled graph "walks the graph from
    its entry point following edges until TERMINAL is reached"; an exception
    of a node function ends the walk.  One node runs per superstep and [fuel]
    bounds the supersteps. *)
Fixpoint walk {S} (fuel : nat) (g : StateGraph (M S unit)) (name : string)
    : M S unit :=
  match fuel with
  | O => raise GraphRecursionError
  | Datatypes.S fuel' =>
      match assoc name (nodes g) with
      | None => raise (KeyError name)
      | Some fn =>
          fn ;;;
          match assoc name (edges g) with
          | Some (Node next) => walk fuel' g next
          | Some END | None => ret tt
          end
      end
  end.

(** Modelled from the spec: [graph.invoke(initial_state)].  As many
    supersteps as the graph has nodes are enough for every walk that does not
    come back to a node. *)
Definition invoke {S} (g : StateGraph (M S unit)) : M S unit :=
  match entry_point g with
  | Some name => walk (length (nodes g)) g name
  | None => raise (ValueError "Graph must have an entrypoint")
  end.

(** ** The logger

    [utils/logger.py] gives the builder a logger with two handlers.  The file
    handler writes to the log file, which is outside the model.  The console
    handler is a [StreamHandler(sys.stdout)] with a [ColoredFormatter]: every
    record the builder logs is also written to the standard output, between
    the lines the capabilities print. *)

Inductive log_level : Type := INFO | ERROR.

(** The records of [build_graph], [node_function] and [execute], one
    constructor per call of [self.logger], with the values the message is
    formatted from. *)
Inductive log_record : Type :=
  (** [build_graph]: "Building LangGraph..." *)
  | LogBuilding
  (** "  ✓ Added node: {step_id} ({agent_name})" *)
  | LogAddedNode (step_id agent_name : string)
  (** "  ✓ Added edge: {current_step} → {next_step}" *)
  | LogAddedEdge (current_step next_step : string)
  (** "  ✓ Added edge: {steps[-1]['id']} → END" *)
  | LogAddedEndEdge (step_id : string)
  (** "✓ LangGraph compiled successfully" *)
  | LogCompiled
  (** a line break and sixty [=] *)
  | LogRuleNewline
  (** sixty [=] *)
  | LogRule
  (** [node_function]: "🤖 Executing: {agent_class_name} (Step: {step_id})" *)
  | LogExecuting (agent_class_name step_id : string)
  (** "📥 Inputs: {list(inputs.keys())}" *)
  | LogInputs (inputs : pyval)
  (** "📤 Output keys: {list(output.keys())}" *)
  | LogOutputKeys (output : pyval)
  (** "💭 Thoughts: {len(reasoning['thoughts'])}" *)
  | LogThoughts
  (** "🎬 Actions: {len(reasoning['actions'])}" *)
  | LogActions
  (** "✗ Agent execution failed: {e}" *)
  | LogAgentFailed (e : exn)
  (** [execute]: "▶️  Starting Workflow Execution" *)
  | LogStarting
  (** "✅ Workflow Completed Successfully" *)
  | LogCompleted
  (** "⏱️  Duration: {duration:.2f} seconds" *)
  | LogDuration
  (** "❌ Workflow execution failed: {e}" *)
  | LogWorkflowFailed (e : exn).

(** What the console handler writes for a record: the coloured level name,
    the name of the logger and the formatted message.  The text depends on
    what the sources do not fix (the colour codes of colorama, Python's
    rendering of a list of keys and of an exception, the number of thoughts
    and actions of the agent, the time that has passed), so it is a
    parameter; it may depend on the world the record is logged in. *)
Definition console_handler : Type := log_level -> log_record -> world -> string.

(** The world once a record has been logged: one more entry on the standard
    output, the heap as it was. *)
Definition logged (console : console_handler) (level : log_level)
    (msg : log_record) (w : world) : world :=
  {| heap := heap w; stdout := stdout w ++ [console level msg w] |}.

(** [self.logger.info(...)] and [self.logger.error(...)]: they return
    nothing and raise nothing. *)
Definition log (console : console_handler) (level : log_level)
    (msg : log_record) : M world unit :=
  fun w => (Ok tt, logged console level msg w).

(** ** Loops and indexing of the code that builds the graph *)

(** The outcome of a call that does not touch the state. *)
Definition lift_outcome {S A} (o : outcome A) : M S A := fun s => (o, s).

(** [for a in l: ...] over a graph that the body updates *)
Fixpoint for_each {S A G} (body : G -> A -> M S G) (l : list A) (g : G)
    : M S G :=
  match l with
  | [] => ret g
  | a :: rest => g' <- body g a ;; for_each body rest g'
  end.

(** [l[i]] for [i >= 0] *)
Definition getitem {S A} (l : list A) (i : nat) : M S A :=
  match l !! i with
  | Some a => ret a
  | None => raise IndexError
  end.

(** ** [LangGraphWorkflowBuilder] *)

Section Orchestrator.
(** [self.workflow_config], as [load_workflow] stored it. *)
Variable workflow_config : WorkflowConfig.
(** [utils.tool_loader.load_tools_config]: it reads the process environment
    and builds new dicts; any behaviour on the world is allowed for. *)
Variable load_tools_config : StepSpec -> M world pyval.
(** The business logic of the seven agent classes, and the printing of the
    summary: any behaviour on the world is allowed for. *)
Variable ProspectSearchAgent DataEnrichmentAgent ScoringAgent : agent_body.
Variable OutreachContentAgent OutreachExecutorAgent : agent_body.
Variable ResponseTrackerAgent FeedbackTrainerAgent : agent_body.
Variable _print_summary : gmap string pyval -> M world unit.
(** The console handler of [self.logger]. *)
Variable console : console_handler.

(** The registry dict of the module, class name to class. *)
Definition AGENT_REGISTRY : gmap string agent_body :=
  list_to_map
    [("ProspectSearchAgent", ProspectSearchAgent);
     ("DataEnrichmentAgent", DataEnrichmentAgent);
     ("ScoringAgent", ScoringAgent);
     ("OutreachContentAgent", OutreachContentAgent);
     ("OutreachExecutorAgent", OutreachExecutorAgent);
     ("ResponseTrackerAgent", ResponseTrackerAgent);
     ("FeedbackTrainerAgent", FeedbackTrainerAgent)].

(** [self.workflow_config.get('config', {})] *)
Definition get_config : M world pyval :=
  match config workflow_config with
  | Some c => ret c
  | None => alloc (ODict ∅)
  end.

(** The closure [_create_node_function] returns, with every call of the
    logger in its place.  The arguments of the messages ([inputs.keys()],
    [output.keys()], the reasoning log of [BaseAgent]) are taken from dicts
    and cannot raise.  The handler logs the error and re-raises. *)
Definition node_function (step : StepSpec) : M run unit :=
  let step_id := id step in
  let agent_class_name := agent step in
  lift_world (log console INFO LogRuleNewline) ;;;
  lift_world (log console INFO (LogExecuting agent_class_name step_id)) ;;;
  lift_world (log console INFO LogRule) ;;;
  tools_config <- lift_world (load_tools_config step) ;;
  match AGENT_REGISTRY !! agent_class_name with
  | None => raise (ValueError ("Unknown agent: " +:+ agent_class_name))
  | Some agent_class =>
      st <- get_state ;;
      cfg <- lift_world get_config ;;
      inputs <- lift_world
        (_resolve_inputs (step_outputs st) cfg (TDict (inputs step))) ;;
      lift_world (log console INFO (LogInputs inputs)) ;;;
      try_except
        (output <- lift_world
           (execute_agent agent_class step tools_config inputs) ;;
         record step_id output ;;;
         advance step_id ;;;
         lift_world (log console INFO (LogOutputKeys output)) ;;;
         lift_world (log console INFO LogThoughts) ;;;
         lift_world (log console INFO LogActions) ;;;
         ret tt)
        (fun e =>
           lift_world (log console ERROR (LogAgentFailed e)) ;;;
           raise e)
  end.

(** [build_graph]: a node per step, the entry point, the edges by index,
    the edge to [END], each with its line of the log.  It takes no run
    state: no step runs while building. *)
Definition build_graph : M world (StateGraph (M run unit)) :=
  log console INFO LogBuilding ;;;
  workflow <- for_each
    (fun g step =>
       let step_id := id step in
       let agent_name := agent step in
       g <- lift_outcome (add_node step_id (node_function step) g) ;;
       log console INFO (LogAddedNode step_id agent_name) ;;;
       ret g)
    (steps workflow_config) new_graph ;;
  let steps := steps workflow_config in
  first <- getitem steps 0 ;;
  let workflow := set_entry_point (id first) workflow in
  workflow <- for_each
    (fun g i =>
       current_step <- getitem steps i ;;
       next_step <- getitem steps (i + 1) ;;
       let g := add_edge (id current_step) (Node (id next_step)) g in
       log console INFO (LogAddedEdge (id current_step) (id next_step)) ;;;
       ret g)
    (seq 0 (length steps - 1)) workflow ;;
  last_step <- getitem steps (length steps - 1) ;;
  let workflow := add_edge (id last_step) END workflow in
  log console INFO (LogAddedEndEdge (id last_step)) ;;;
  let graph := compile workflow in
  log console INFO LogCompiled ;;;
  ret graph.

Definition initial_state : WorkflowState :=
  {| messages := ["Start prospect-to-lead workflow"];
     workflow_data := workflow_config;
     current_step := "";
     step_outputs := ∅ |}.

(** [execute], on [self.graph]; its handler logs the error and re-raises. *)
Definition execute (graph : StateGraph (M run unit))
    : M run (gmap string pyval) :=
  lift_world (log console INFO LogRuleNewline) ;;;
  lift_world (log console INFO LogStarting) ;;;
  lift_world (log console INFO LogRule) ;;;
  set_state initial_state ;;;
  try_except
    (invoke graph ;;;
     final_state <- get_state ;;
     lift_world (log console INFO LogRuleNewline) ;;;
     lift_world (log console INFO LogCompleted) ;;;
     lift_world (log console INFO LogDuration) ;;;
     lift_world (log console INFO LogRule) ;;;
     lift_world (_print_summary (step_outputs final_state)) ;;;
     ret (step_outputs final_state))
    (fun e =>
       lift_world (log console ERROR (LogWorkflowFailed e)) ;;;
       raise e).

(** [builder.build_graph()] then [builder.execute()], as [main] does. *)
Definition build_and_execute : M run (gmap string pyval) :=
  graph <- lift_world build_graph ;;
  execute graph.

(** The steps of a list one after the other: what a run of the built chain
    amounts to. *)
Fixpoint run_nodes (l : list StepSpec) : M run unit :=
  match l with
  | [] => ret tt
  | step :: rest => node_function step ;;; run_nodes rest
  end.

End Orchestrator.

(** ** [utils/validators.py] *)

Definition not_dictionary_warning (step_id : string) : string :=
  "Warning: Step '" +:+ step_id +:+ "' output is not a dictionary".

Definition missing_required_warning (step_id key : string) : string :=
  "Warning: Step '" +:+ step_id +:+ "' missing required output key: " +:+ key.

(** The loop of [validate_step_output] over [expected_schema.keys()]. *)
Fixpoint validate_step_output_keys (step_id : string) (keys : list string)
    (output : pyval) : M world bool :=
  match keys with
  | [] => ret true
  | key :: rest =>
      present <- py_contains output key ;;
      if present then validate_step_output_keys step_id rest output
      else (print (missing_required_warning step_id key) ;;; ret false)
  end.

Definition validate_step_output (step_id : string) (output : pyval)
    (expected_schema : list (string * template)) : M world bool :=
  fun w =>
    if is_dict (heap w) output
    then validate_step_output_keys step_id (map fst expected_schema) output w
    else (print (not_dictionary_warning step_id) ;;; ret false) w.

(** [re.findall(pattern, value)] for the pattern of the resolver: the matches
    from left to right, each search starting where the match before it ended.
    [skip] counts the characters of the current match still to pass. *)
Fixpoint findall_from (skip : nat) (value : string) : list string :=
  match value with
  | EmptyString => []
  | String _ t =>
      match skip with
      | Datatypes.S k => findall_from k t
      | O =>
          match match_here value with
          | Some g => g :: findall_from (String.length g + 3) t
          | None => findall_from 0 t
          end
      end
  end.

Definition extract_variable_references (value : string) : list string :=
  findall_from 0 value.

(** ** [utils/tool_loader.py] *)

(** The class [[A-Z_]]. *)
Definition is_env_char (c : Ascii.ascii) : bool :=
  (Ascii.leb "A"%char c && Ascii.leb c "Z"%char) || Ascii.eqb c "_"%char.

Fixpoint span_env (s : string) : string * string :=
  match s with
  | EmptyString => (EmptyString, EmptyString)
  | String c t =>
      if is_env_char c
      then let (g, r) := span_env t in (String c g, r)
      else (EmptyString, s)
  end.

(** A match of [\{\{([A-Z_]+)\}\}] anchored at the start of [s]. *)
Definition match_env_here (s : string) : option string :=
  match s with
  | String c1 (String c2 rest) =>
      if Ascii.eqb c1 open_brace && Ascii.eqb c2 open_brace then
        match span_env rest with
        | (EmptyString, _) => None
        | (g, String d1 (String d2 _)) =>
            if Ascii.eqb d1 close_brace && Ascii.eqb d2 close_brace
            then Some g else None
        | _ => None
        end
      else None
  | _ => None
  end.

Fixpoint findall_env_from (skip : nat) (value : string) : list string :=
  match value with
  | EmptyString => []
  | String _ t =>
      match skip with
      | Datatypes.S k => findall_env_from k t
      | O =>
          match match_env_here value with
          | Some g => g :: findall_env_from (String.length g + 3) t
          | None => findall_env_from 0 t
          end
      end
  end.

(** [s.replace(old, new)]: every occurrence of [old] from left to right,
    without overlap; an empty [old] matches between all characters. *)
Fixpoint str_replace_from (old new : string) (skip : nat) (s : string)
    : string :=
  match s with
  | EmptyString =>
      match old with EmptyString => new | _ => EmptyString end
  | String c t =>
      match skip with
      | Datatypes.S k => str_replace_from old new k t
      | O =>
          if String.prefix old s then
            match old with
            | EmptyString => new +:+ String c (str_replace_from old new 0 t)
            | _ => new +:+ str_replace_from old new (String.length old - 1) t
            end
          else String c (str_replace_from old new 0 t)
      end
  end.

Definition str_replace (old new s : string) : string :=
  str_replace_from old new 0 s.

Definition env_not_found_warning (name : string) : string :=
  "Warning: Environment variable " +:+ name +:+ " not found".

Section ToolLoader.
(** [os.environ] *)
Variable environ : gmap string string.

(** [os.getenv(name, '')] *)
Definition getenv_or_empty (name : string) : string :=
  default EmptyString (environ !! name).

(** [for match in matches: ...] in [replace_value] *)
Fixpoint replace_matches (matches : list string) (value : string)
    : M world string :=
  match matches with
  | [] => ret value
  | m :: rest =>
      let env_value := getenv_or_empty m in
      (if bool_decide (env_value = EmptyString)
       then print (env_not_found_warning m) else ret tt) ;;;
      replace_matches rest (str_replace ("{{" +:+ m +:+ "}}") env_value value)
  end.

(** The inner function of [replace_env_variables], on parsed JSON.  A
    configuration goes in and comes out as a tree: the dict or list the
    source builds at every level is the tree returned here, not an object of
    the heap, so the identity of these containers is not modelled. *)
Fixpoint replace_value (value : template) : M world template :=
  match value with
  | TStr s =>
      r <- replace_matches (findall_env_from 0 s) s ;;
      ret (TStr r)
  | TDict items =>
      let fix replace_items (kvs : list (string * template))
          : M world (list (string * template)) :=
        match kvs with
        | [] => ret []
        | (k, v) :: rest =>
            r <- replace_value v ;;
            rs <- replace_items rest ;;
            ret ((k, r) :: rs)
        end in
      rs <- replace_items items ;;
      ret (TDict rs)
  | TList items =>
      let fix replace_elems (vs : list template) : M world (list template) :=
        match vs with
        | [] => ret []
        | v :: rest =>
            r <- replace_value v ;;
            rs <- replace_elems rest ;;
            ret (r :: rs)
        end in
      rs <- replace_elems items ;;
      ret (TList rs)
  | _ => ret value
  end.

Definition replace_env_variables (config : template) : M world template :=
  replace_value config.

(** The loop of [validate_api_keys]: [missing_keys.append(key)] for every
    key whose variable is unset or empty. *)
Fixpoint collect_missing_keys (missing_keys required_keys : list string)
    : list string :=
  match required_keys with
  | [] => missing_keys
  | key :: rest =>
      if bool_decide (getenv_or_empty key = EmptyString)
      then collect_missing_keys (missing_keys ++ [key]) rest
      else collect_missing_keys missing_keys rest
  end.

Definition validate_api_keys (required_keys : list string) : M world bool :=
  match collect_missing_keys [] required_keys with
  | [] => ret true
  | missing_keys =>
      print ("Missing required API keys: " +:+ String.concat ", " missing_keys) ;;;
      ret false
  end.

End ToolLoader.

(** ** Vocabulary of the statements *)

(** The value stored under a path: every segment is a key of the dict reached
    so far. *)
Fixpoint stored_at (h : list object) (v : pyval) (parts : list string)
    : option pyval :=
  match parts with
  | [] => Some v
  | part :: rest =>
      match deref h v with
      | Some (ODict items) =>
          match items !! part with
          | Some v' => stored_at h v' rest
          | None => None
          end
      | _ => None
      end
  end.

Definition is_empty_mapping (h : list object) (v : pyval) : Prop :=
  exists l, v = VRef l /\ h !! l = Some (ODict ∅).

Definition returns_empty_mapping (r : outcome pyval * world) : Prop :=
  exists v, r.1 = Ok v /\ is_empty_mapping (heap r.2) v.

(** The reference is one the resolver substitutes: a [config] path, or a path
    of at least three segments whose step id has a recorded output. *)
Definition resolvable (step_outputs : gmap string pyval) (path : string) : bool :=
  let parts := split_dot path in
  bool_decide (head parts = Some "config") ||
  (bool_decide (3 <= length parts)%nat &&
   bool_decide (is_Some (step_outputs !! default "" (head parts)))).

(** The edges of the chain over a step list: each step to its successor, the
    last one to [END]. *)
Fixpoint chain_edges (l : list StepSpec) : list (string * target) :=
  match l with
  | [] => []
  | a :: rest =>
      (id a, match rest with b :: _ => Node (id b) | [] => END end)
      :: chain_edges rest
  end.

Fixpoint internal_edges (l : list StepSpec) : list (string * target) :=
  match l with
  | a :: (b :: _) as rest => (id a, Node (id b)) :: internal_edges rest
  | _ => []
  end.

(** The lines of the log, as the worlds they leave.  A node starts with
    three lines, and ends with three more when its capability has returned
    [output]. *)
Definition node_announced (console : console_handler) (step : StepSpec)
    (w : world) : world :=
  logged console INFO LogRule
    (logged console INFO (LogExecuting (agent step) (id step))
       (logged console INFO LogRuleNewline w)).

Definition node_reported (console : console_handler) (output : pyval)
    (w : world) : world :=
  logged console INFO LogActions
    (logged console INFO LogThoughts
       (logged console INFO (LogOutputKeys output) w)).

(** [build_graph] logs a line per node added and a line per edge added. *)
Fixpoint nodes_logged (console : console_handler) (l : list StepSpec)
    (w : world) : world :=
  match l with
  | [] => w
  | s :: rest =>
      nodes_logged console rest
        (logged console INFO (LogAddedNode (id s) (agent s)) w)
  end.

Fixpoint edges_logged (console : console_handler) (l : list StepSpec)
    (w : world) : world :=
  match l with
  | a :: (b :: _) as rest =>
      edges_logged console rest
        (logged console INFO (LogAddedEdge (id a) (id b)) w)
  | _ => w
  end.

(** All the lines of a build that succeeds, in order. *)
Definition graph_logged (console : console_handler) (l : list StepSpec)
    (w : world) : world :=
  let w1 :=
    edges_logged console l
      (nodes_logged console l (logged console INFO LogBuilding w)) in
  match last l with
  | Some z =>
      logged console INFO LogCompiled
        (logged console INFO (LogAddedEndEdge (id z)) w1)
  | None => w1
  end.

(** [execute] starts with three lines, and logs four more when the run of
    the graph has returned. *)
Definition execution_announced (console : console_handler) (w : world)
    : world :=
  logged console INFO LogRule
    (logged console INFO LogStarting
       (logged console INFO LogRuleNewline w)).

Definition execution_reported (console : console_handler) (w : world)
    : world :=
  logged console INFO LogRule
    (logged console INFO LogDuration
       (logged console INFO LogCompleted
          (logged console INFO LogRuleNewline w))).

(** The first declared key the output dict lacks, in schema order. *)
Fixpoint first_missing (keys : list string) (items : gmap string pyval)
    : option string :=
  match keys with
  | [] => None
  | key :: rest =>
      match items !! key with
      | Some _ => first_missing rest items
      | None => Some key
      end
  end.

(** The token [{{path}}] on its own. *)
Definition token (path : string) : string := "{{" +:+ path +:+ "}}".

Fixpoint has_close (s : string) : bool :=
  match s with
  | EmptyString => false
  | String c t => Ascii.eqb c close_brace || has_close t
  end.

(** A template none of whose strings holds a [config] reference as its first
    token. *)
Definition str_config_free (s : string) : bool :=
  match re_search s with
  | Some path => negb (bool_decide (head (split_dot path) = Some "config"))
  | None => true
  end.

Fixpoint config_free (t : template) : bool :=
  match t with
  | TStr s => str_config_free s
  | TDict items => forallb (fun kv => config_free (snd kv)) items
  | TList items => forallb config_free items
  | _ => true
  end.

(** The character [c] occurs in [s]. *)
Fixpoint has_char (c : Ascii.ascii) (s : string) : bool :=
  match s with
  | EmptyString => false
  | String x t => Ascii.eqb x c || has_char c t
  end.

(** A template none of whose strings holds an opening brace. *)
Fixpoint brace_free (t : template) : bool :=
  match t with
  | TStr s => negb (has_char open_brace s)
  | TDict items => forallb (fun kv => brace_free (snd kv)) items
  | TList items => forallb brace_free items
  | _ => true
  end.

(** A template with every string emptied: its shape. *)
Fixpoint skeleton (t : template) : template :=
  match t with
  | TStr _ => TStr EmptyString
  | TDict items => TDict (map (fun kv => (fst kv, skeleton (snd kv))) items)
  | TList items => TList (map skeleton items)
  | _ => t
  end.

(** A name of an environment variable as the pattern takes it: not empty,
    capitals and underscores only. *)
Fixpoint all_env_chars (s : string) : bool :=
  match s with
  | EmptyString => true
  | String c t => is_env_char c && all_env_chars t
  end.

Definition is_env_name (s : string) : bool :=
  negb (bool_decide (s = EmptyString)) && all_env_chars s.

(** A segment of a path: without dot and without closing brace. *)
Definition is_segment (s : string) : bool :=
  negb (has_char dot s) && negb (has_close s).

(** The names of the registry. *)
Definition agent_class_names : list string :=
  ["ProspectSearchAgent"; "DataEnrichmentAgent"; "ScoringAgent";
   "OutreachContentAgent"; "OutreachExecutorAgent"; "ResponseTrackerAgent";
   "FeedbackTrainerAgent"].

(** From [w] to [w'] objects were only added: the objects of [w] are as they
    were, and nothing was printed. *)
Definition only_allocates (w w' : world) : Prop :=
  (exists new, heap w' = heap w ++ new) /\ stdout w' = stdout w.

(** The comprehensions of [resolve_value] as functions of their own: the
    items of a dict, inserted one after the other, and the elements of a
    list. *)
Fixpoint resolve_items (step_outputs : gmap string pyval)
    (workflow_config : pyval) (acc : gmap string pyval)
    (kvs : list (string * template)) : M world (gmap string pyval) :=
  match kvs with
  | [] => ret acc
  | (k, v) :: rest =>
      r <- resolve_value step_outputs workflow_config v ;;
      resolve_items step_outputs workflow_config (<[k := r]> acc) rest
  end.

Fixpoint resolve_elems (step_outputs : gmap string pyval)
    (workflow_config : pyval) (vs : list template) : M world (list pyval) :=
  match vs with
  | [] => ret []
  | v :: rest =>
      r <- resolve_value step_outputs workflow_config v ;;
      rs <- resolve_elems step_outputs workflow_config rest ;;
      ret (r :: rs)
  end.

(** ** Concrete data of the examples *)

(** [static_config = {"x": 9}] at address 0. *)
Definition world_x9 : world :=
  {| heap := [ODict {[ "x" := VInt 9 ]}]; stdout := [] |}.

(** [static_config = {"a": {"b": 5}}]: the outer dict at 0, the inner at 1. *)
Definition world_ab5 : world :=
  {| heap := [ODict {[ "a" := VRef 1%nat ]}; ODict {[ "b" := VInt 5 ]}];
     stdout := [] |}.

(** [static_config = {"a": 5}] at address 0. *)
Definition world_a5 : world :=
  {| heap := [ODict {[ "a" := VInt 5 ]}]; stdout := [] |}.

(** [step_outputs = {"s1": {"leads": [1,2,3]}}] with an empty static
    configuration: the configuration at 0, the output of [s1] at 1, its list
    at 2. *)
Definition world_leads : world :=
  {| heap := [ODict ∅; ODict {[ "leads" := VRef 2%nat ]};
              OList [VInt 1; VInt 2; VInt 3]];
     stdout := [] |}.

Definition outputs_s1 : gmap string pyval := {[ "s1" := VRef 1%nat ]}.

(** Capabilities for the examples: one that returns its inputs under the key
    [y], one that returns no entry at all, one that raises. *)
Definition echo_body : agent_body :=
  fun _ _ inputs => ret {[ "y" := inputs ]}.

Definition silent_body : agent_body :=
  fun _ _ _ => ret ∅.

Definition failing_body : agent_body :=
  fun _ _ _ => raise (CapabilityError "boom").

(** [load_tools_config] of a step without tools: a new empty dict. *)
Definition no_tools : StepSpec -> M world pyval :=
  fun _ => alloc (ODict ∅).

Definition no_summary : gmap string pyval -> M world unit :=
  fun _ => ret tt.

Definition step_A : StepSpec :=
  {| id := "A"; agent := "ProspectSearchAgent";
     inputs := [("x", TInt 1)]; instructions := "echo";
     tools := []; output_schema := [("y", TDict [])] |}.

Definition step_B : StepSpec :=
  {| id := "B"; agent := "ScoringAgent";
     inputs := [("v", TStr "{{A.output.y}}")]; instructions := "fail";
     tools := []; output_schema := [] |}.

Definition step_C : StepSpec :=
  {| id := "C"; agent := "DataEnrichmentAgent";
     inputs := []; instructions := "nothing";
     tools := []; output_schema := [("enriched_leads", TList [])] |}.

Definition workflow_of (l : list StepSpec) : WorkflowConfig :=
  {| workflow_name := "example"; description := "example";
     config := None; steps := l |}.

Definition wf_ABC : WorkflowConfig := workflow_of [step_A; step_B; step_C].

(** A console for the examples: the level, the name of the logger and a
    short form of the message, without colours. *)
Definition plain_message (msg : log_record) : string :=
  match msg with
  | LogBuilding => "Building LangGraph..."
  | LogAddedNode step_id agent_name =>
      "Added node: " +:+ step_id +:+ " (" +:+ agent_name +:+ ")"
  | LogAddedEdge current_step next_step =>
      "Added edge: " +:+ current_step +:+ " -> " +:+ next_step
  | LogAddedEndEdge step_id => "Added edge: " +:+ step_id +:+ " -> END"
  | LogCompiled => "LangGraph compiled successfully"
  | LogRuleNewline => "===="
  | LogRule => "===="
  | LogExecuting agent_class_name step_id =>
      "Executing: " +:+ agent_class_name +:+ " (Step: " +:+ step_id +:+ ")"
  | LogInputs _ => "Inputs"
  | LogOutputKeys _ => "Output keys"
  | LogThoughts => "Thoughts"
  | LogActions => "Actions"
  | LogAgentFailed _ => "Agent execution failed"
  | LogStarting => "Starting Workflow Execution"
  | LogCompleted => "Workflow Completed Successfully"
  | LogDuration => "Duration"
  | LogWorkflowFailed _ => "Workflow execution failed"
  end.

Definition plain_console : console_handler :=
  fun level msg _ =>
    match level with INFO => "INFO" | ERROR => "ERROR" end
    +:+ " | LangGraphBuilder | " +:+ plain_message msg.

(** The builder of the examples: [ProspectSearchAgent] echoes,
    [DataEnrichmentAgent] returns nothing, [ScoringAgent] fails. *)
Definition example_node (wf : WorkflowConfig) : StepSpec -> M run unit :=
  node_function wf no_tools echo_body silent_body failing_body
    echo_body echo_body echo_body echo_body plain_console.

Definition example_build (wf : WorkflowConfig)
    : M world (StateGraph (M run unit)) :=
  build_graph wf no_tools echo_body silent_body failing_body
    echo_body echo_body echo_body echo_body plain_console.

Definition example_run (wf : WorkflowConfig) : M run (gmap string pyval) :=
  build_and_execute wf no_tools echo_body silent_body failing_body
    echo_body echo_body echo_body echo_body no_summary plain_console.

Definition empty_world : world := {| heap := []; stdout := [] |}.

Definition fresh_run (wf : WorkflowConfig) : run :=
  {| state := initial_state wf; env := empty_world |}.

(** A run state in which [s1] already has a recorded output. *)
Definition run_with_s1 : run :=
  {| state := {| messages := []; workflow_data := wf_ABC;
                 current_step := "s1";
                 step_outputs := {[ "s1" := VInt 1 ]} |};
     env := empty_world |}.

(** A workflow whose two steps complete, and a step that names an agent the
    registry does not know. *)
Definition wf_AC : WorkflowConfig := workflow_of [step_A; step_C].

Definition step_unknown : StepSpec :=
  {| id := "U"; agent := "EchoAgent";
     inputs := []; instructions := "unknown";
     tools := []; output_schema := [] |}.

(** ** The resolver *)

Lemma str_app_cons (x : ascii) (a b : string) :
  String x a +:+ b = String x (a +:+ b).
Proof. reflexivity. Qed.

Lemma str_app_assoc (a b c : string) : (a +:+ b) +:+ c = a +:+ b +:+ c.
Proof.
  induction a as [|x a IH]; [reflexivity|].
  rewrite !str_app_cons. by f_equal.
Qed.

Lemma str_app_empty (a : string) : a +:+ EmptyString = a.
Proof.
  induction a as [|x a IH]; [reflexivity|].
  rewrite str_app_cons. by f_equal.
Qed.

Lemma span_not_close_spec s g r :
  span_not_close s = (g, r) ->
  s = g +:+ r /\ has_close g = false /\
  (r = EmptyString \/ exists t, r = String close_brace t).
Proof.
  revert g r. induction s as [|c t IH]; intros g r; simpl.
  - intros [= <- <-]. auto.
  - destruct (Ascii.eqb c close_brace) eqn:Ec.
    + intros [= <- <-]. apply Ascii.eqb_eq in Ec. subst c.
      split; [reflexivity|]. split; [reflexivity|]. right. eauto.
    + destruct (span_not_close t) as [g' r'] eqn:Es.
      intros [= <- <-]. destruct (IH _ _ eq_refl) as (-> & Hg & Hr).
      rewrite str_app_cons. simpl. rewrite Ec, Hg. auto.
Qed.

Lemma span_not_close_token g post :
  has_close g = false ->
  span_not_close (g +:+ "}}" +:+ post) = (g, "}}" +:+ post).
Proof.
  induction g as [|c t IH]; [reflexivity|].
  intros H. cbn [has_close] in H. apply orb_false_iff in H as [Hc Ht].
  rewrite str_app_cons. cbn [span_not_close]. rewrite Hc, (IH Ht). reflexivity.
Qed.

Lemma match_here_sound s g :
  match_here s = Some g ->
  g <> EmptyString /\ has_close g = false /\
  exists post, s = token g +:+ post.
Proof.
  unfold match_here. destruct s as [|c1 [|c2 rest]]; try discriminate.
  destruct (Ascii.eqb c1 open_brace) eqn:E1; try discriminate.
  destruct (Ascii.eqb c2 open_brace) eqn:E2; try discriminate. simpl.
  apply Ascii.eqb_eq in E1, E2. subst c1 c2.
  destruct (span_not_close rest) as [g' r] eqn:Es.
  apply span_not_close_spec in Es as (-> & Hg & _).
  destruct g' as [|c g']; try discriminate.
  destruct r as [|d1 [|d2 post]]; try discriminate.
  destruct (Ascii.eqb d1 close_brace) eqn:D1; try discriminate.
  destruct (Ascii.eqb d2 close_brace) eqn:D2; try discriminate. simpl.
  apply Ascii.eqb_eq in D1, D2. subst d1 d2.
  intros [= <-]. split; [discriminate|]. split; [exact Hg|].
  exists post. unfold token. rewrite !str_app_assoc. reflexivity.
Qed.

Lemma match_here_token g post :
  g <> EmptyString -> has_close g = false ->
  match_here (token g +:+ post) = Some g.
Proof.
  intros Hne Hg. unfold token. rewrite !str_app_assoc.
  change ("{{" +:+ g +:+ "}}" +:+ post)
    with (String open_brace (String open_brace (g +:+ "}}" +:+ post))).
  unfold match_here. rewrite (span_not_close_token g post Hg).
  destruct g; [congruence | reflexivity].
Qed.

(** The group found by the search is a well-formed path, and the string has
    the token around it somewhere. *)
Lemma re_search_sound value g :
  re_search value = Some g ->
  g <> EmptyString /\ has_close g = false /\
  exists pre post, value = pre +:+ token g +:+ post.
Proof.
  induction value as [|c t IH].
  - simpl. discriminate.
  - cbn [re_search]. destruct (match_here (String c t)) as [g'|] eqn:Em.
    + intros [= ->]. apply match_here_sound in Em as (Hne & Hg & post & ->).
      split; [exact Hne|]. split; [exact Hg|]. exists EmptyString, post. reflexivity.
    + intros H. destruct (IH H) as (Hne & Hg & pre & post & ->).
      split; [exact Hne|]. split; [exact Hg|]. exists (String c pre), post. reflexivity.
Qed.

(** The match found is the leftmost one: no match starts inside the text
    before it. *)
Lemma re_search_leftmost value g :
  re_search value = Some g ->
  exists pre post,
    value = pre +:+ token g +:+ post /\
    forall a b, pre = a +:+ b -> b <> EmptyString ->
      match_here (b +:+ token g +:+ post) = None.
Proof.
  induction value as [|c t IH].
  - simpl. discriminate.
  - cbn [re_search]. destruct (match_here (String c t)) as [g'|] eqn:Em.
    + intros [= ->]. apply match_here_sound in Em as (_ & _ & post & ->).
      exists EmptyString, post. split; [reflexivity|].
      intros [|x a] b Hab Hb; [|discriminate].
      change (EmptyString +:+ b) with b in Hab. congruence.
    + intros H. destruct (IH H) as (pre & post & -> & Hleft).
      exists (String c pre), post. split; [reflexivity|].
      intros [|x a] b Hab Hb.
      * change (EmptyString +:+ b) with b in Hab. subst b. exact Em.
      * rewrite str_app_cons in Hab. injection Hab as _ Hab.
        by apply (Hleft a).
Qed.

(** Without a match, no suffix of the string starts with the pattern. *)
Lemma re_search_none value :
  re_search value = None ->
  forall pre s, value = pre +:+ s -> match_here s = None.
Proof.
  induction value as [|c t IH]; intros H pre s Heq.
  - destruct pre; [|discriminate].
    change (EmptyString +:+ s) with s in Heq. by subst s.
  - cbn [re_search] in H.
    destruct (match_here (String c t)) as [g|] eqn:Em; [discriminate|].
    destruct pre as [|x pre].
    + change (EmptyString +:+ s) with s in Heq. by subst s.
    + rewrite str_app_cons in Heq. injection Heq as _ Heq.
      by apply (IH H pre).
Qed.

Lemma re_search_token value g :
  re_search value = Some g -> re_search (token g) = Some g.
Proof.
  intros H. apply re_search_sound in H as (Hne & Hg & _).
  pose proof (match_here_token g EmptyString Hne Hg) as Hm.
  rewrite str_app_empty in Hm.
  change (token g) with (String open_brace (String open_brace (g +:+ "}}"))) in *.
  cbn [re_search]. by rewrite Hm.
Qed.

Lemma split_dot_nonempty s : split_dot s <> [].
Proof.
  destruct s as [|c t]; simpl; [discriminate|].
  destruct (Ascii.eqb c dot); [discriminate|].
  destruct (split_dot t); discriminate.
Qed.

Lemma resolve_str_config outs cfg value path rest :
  re_search value = Some path ->
  split_dot path = "config" :: rest ->
  resolve_str outs cfg value = config_walk cfg rest.
Proof.
  intros Hs Hp. unfold resolve_str. rewrite Hs, Hp. cbn [head drop].
  by rewrite bool_decide_true.
Qed.

Lemma resolve_str_step outs cfg value path step_id second rest result :
  re_search value = Some path ->
  split_dot path = step_id :: second :: rest ->
  rest <> [] -> step_id <> "config" ->
  outs !! step_id = Some result ->
  resolve_str outs cfg value = step_walk result rest.
Proof.
  intros Hs Hp Hr Hc Ho. unfold resolve_str. rewrite Hs, Hp.
  cbn [head drop default]. rewrite bool_decide_false by congruence.
  destruct rest as [|third rest]; [done|].
  rewrite bool_decide_true by (simpl; lia). simpl. by rewrite Ho.
Qed.

Lemma resolve_str_absent outs cfg value path step_id :
  re_search value = Some path ->
  head (split_dot path) = Some step_id ->
  step_id <> "config" ->
  outs !! step_id = None ->
  resolve_str outs cfg value = ret (VStr value).
Proof.
  intros Hs Hh Hc Ho. unfold resolve_str. rewrite Hs. cbv zeta. rewrite Hh.
  rewrite bool_decide_false by congruence. simpl. rewrite Ho.
  by destruct (bool_decide _).
Qed.

Lemma resolve_str_same_token outs cfg value value' path :
  re_search value = Some path ->
  re_search value' = Some path ->
  resolvable outs path = true ->
  resolve_str outs cfg value = resolve_str outs cfg value'.
Proof.
  intros Hs Hs' Hr. unfold resolve_str, resolvable in *. rewrite Hs, Hs'.
  cbv zeta in *. destruct (bool_decide (head (split_dot path) = Some "config"));
    [reflexivity|].
  destruct (bool_decide (3 <= length (split_dot path))%nat); [|discriminate].
  simpl in Hr. apply bool_decide_eq_true in Hr as [result Hr]. by rewrite Hr.
Qed.

Lemma resolve_str_not_resolvable outs cfg value path :
  re_search value = Some path ->
  resolvable outs path = false ->
  resolve_str outs cfg value = ret (VStr value).
Proof.
  intros Hs Hr. unfold resolve_str, resolvable in *. rewrite Hs. cbv zeta in *.
  destruct (bool_decide (head (split_dot path) = Some "config"));
    [discriminate|].
  destruct (bool_decide (3 <= length (split_dot path))%nat); [|reflexivity].
  simpl in Hr. apply bool_decide_eq_false in Hr.
  destruct (outs !! default "" (head (split_dot path))) eqn:Ho; [|reflexivity].
  exfalso. apply Hr. eauto.
Qed.

(** *** Walks *)

Lemma config_walk_stored parts : forall cfg w v,
  stored_at (heap w) cfg parts = Some v ->
  config_walk cfg parts w = (Ok v, w).
Proof.
  induction parts as [|part rest IH]; intros cfg w v; simpl.
  - by intros [= ->].
  - destruct (deref (heap w) cfg) as [[items|]|] eqn:Hd; try discriminate.
    destruct (items !! part) as [v'|] eqn:Hi; try discriminate.
    intros Hst. unfold bind, dict_get_default. rewrite Hd, Hi. by apply IH.
Qed.

Lemma step_walk_stored parts : forall result w v,
  stored_at (heap w) result parts = Some v ->
  step_walk result parts w = (Ok v, w).
Proof.
  induction parts as [|part rest IH]; intros result w v; simpl.
  - by intros [= ->].
  - unfold is_dict.
    destruct (deref (heap w) result) as [[items|]|] eqn:Hd; try discriminate.
    destruct (items !! part) as [v'|] eqn:Hi; try discriminate.
    intros Hst. unfold bind, dict_get_default. rewrite Hd, Hi. by apply IH.
Qed.

Lemma config_walk_app pre : forall cfg post w,
  config_walk cfg (pre ++ post) w =
  match config_walk cfg pre w with
  | (Ok v, w') => config_walk v post w'
  | (Raise e, w') => (Raise e, w')
  end.
Proof.
  induction pre as [|part pre IH]; intros cfg post w; simpl; [reflexivity|].
  unfold bind. destruct (dict_get_default cfg part w) as [[r|e] w'];
    [apply IH | reflexivity].
Qed.

Lemma alloc_empty_is_empty w :
  is_empty_mapping (heap (alloc (ODict ∅) w).2) (VRef (length (heap w))).
Proof.
  exists (length (heap w)). split; [reflexivity|]. simpl.
  by rewrite lookup_app_r, Nat.sub_diag.
Qed.

Lemma config_walk_empty post : forall w v,
  is_empty_mapping (heap w) v ->
  returns_empty_mapping (config_walk v post w).
Proof.
  induction post as [|part post IH]; intros w v Hv.
  - exists v. split; [reflexivity | exact Hv].
  - destruct Hv as (l & -> & Hl). simpl. unfold bind, dict_get_default.
    simpl. rewrite Hl, lookup_empty. apply IH, alloc_empty_is_empty.
Qed.

Lemma config_walk_missing cfg pre key post w d items :
  stored_at (heap w) cfg pre = Some d ->
  deref (heap w) d = Some (ODict items) ->
  items !! key = None ->
  returns_empty_mapping (config_walk cfg (pre ++ key :: post) w).
Proof.
  intros Hst Hd Hk. rewrite config_walk_app, (config_walk_stored _ _ _ _ Hst).
  simpl. unfold bind, dict_get_default. rewrite Hd, Hk.
  apply config_walk_empty, alloc_empty_is_empty.
Qed.

Lemma config_walk_not_dict cfg pre key post w v :
  stored_at (heap w) cfg pre = Some v ->
  is_dict (heap w) v = false ->
  config_walk cfg (pre ++ key :: post) w = (Raise AttributeError, w).
Proof.
  intros Hst Hd. rewrite config_walk_app, (config_walk_stored _ _ _ _ Hst).
  simpl. unfold bind, dict_get_default. unfold is_dict in Hd.
  destruct (deref (heap w) v) as [[items|]|]; [discriminate | done | done].
Qed.

(** *** Claims on the resolver *)

(** C1, as the code has it: a reference whose first segment is a step id,
    with at least three segments, whose step id has no entry in
    [step_outputs], is not substituted at all: [resolve_value] returns the
    scalar string unchanged (and allocates nothing). *)
Theorem absent_step_reference_left_unchanged outs cfg value path step_id w :
  re_search value = Some path ->
  head (split_dot path) = Some step_id ->
  step_id <> "config" ->
  (3 <= length (split_dot path))%nat ->
  outs !! step_id = None ->
  resolve_value outs cfg (TStr value) w = (Ok (VStr value), w).
Proof.
  intros Hs Hh Hc _ Ho. cbn [resolve_value].
  by rewrite (resolve_str_absent _ _ _ _ _ Hs Hh Hc Ho).
Qed.

Lemma absent_step_reference_left_unchanged_witness :
  resolve_value ∅ (VRef 0%nat) (TStr "{{s1.output.leads}}") world_leads =
  (Ok (VStr "{{s1.output.leads}}"), world_leads).
Proof.
  apply (absent_step_reference_left_unchanged ∅ (VRef 0%nat)
           "{{s1.output.leads}}" "s1.output.leads" "s1" world_leads).
  - reflexivity.
  - reflexivity.
  - discriminate.
  - simpl. lia.
  - reflexivity.
Defined.

(** C1 as stated fails: with no output recorded for [s1], the three-segment
    reference [{{s1.output.leads}}] does not resolve to an empty mapping. *)
Lemma absent_step_reference_not_empty_mapping :
  re_search "{{s1.output.leads}}" = Some "s1.output.leads" /\
  split_dot "s1.output.leads" = ["s1"; "output"; "leads"] /\
  (∅ : gmap string pyval) !! "s1" = None /\
  ~ returns_empty_mapping
      (resolve_value ∅ (VRef 0%nat) (TStr "{{s1.output.leads}}") world_leads).
Proof.
  repeat split; try reflexivity.
  intros (v & Hv & l & -> & _). vm_compute in Hv. discriminate.
Qed.

(** C3, as the code has it: when the first token of a string is a reference
    the resolver substitutes (a [config] path, or a path of at least three
    segments whose step id has a recorded output), the outcome is that of the
    token alone: the text around it plays no part.  When the first token is
    not such a reference, the string is returned as it is, text included.
    [resolve("prefix {{config.x}} suffix", state, {"x": 9})] is [9]. *)
Theorem resolved_reference_replaces_whole_string :
  (forall outs cfg value path w,
     re_search value = Some path ->
     resolvable outs path = true ->
     resolve_value outs cfg (TStr value) w =
     resolve_value outs cfg (TStr (token path)) w) /\
  (forall outs cfg value path w,
     re_search value = Some path ->
     resolvable outs path = false ->
     resolve_value outs cfg (TStr value) w = (Ok (VStr value), w)) /\
  resolve_value ∅ (VRef 0%nat) (TStr "prefix {{config.x}} suffix") world_x9 =
  (Ok (VInt 9), world_x9).
Proof.
  split; [|split].
  - intros outs cfg value path w Hs Hr. cbn [resolve_value].
    by rewrite (resolve_str_same_token outs cfg value (token path) path Hs
                  (re_search_token _ _ Hs) Hr).
  - intros outs cfg value path w Hs Hr. cbn [resolve_value].
    by rewrite (resolve_str_not_resolvable _ _ _ _ Hs Hr).
  - reflexivity.
Qed.

Lemma resolved_reference_replaces_whole_string_witness :
  resolve_value outputs_s1 (VRef 0%nat)
    (TStr "first {{s1.output.leads}} then {{config.x}}") world_leads =
  resolve_value outputs_s1 (VRef 0%nat)
    (TStr "{{s1.output.leads}}") world_leads /\
  resolve_value ∅ (VRef 0%nat) (TStr "prefix {{x}} suffix") world_x9 =
  (Ok (VStr "prefix {{x}} suffix"), world_x9).
Proof.
  split.
  - apply (proj1 resolved_reference_replaces_whole_string outputs_s1
             (VRef 0%nat) "first {{s1.output.leads}} then {{config.x}}"
             "s1.output.leads" world_leads); reflexivity.
  - apply (proj1 (proj2 resolved_reference_replaces_whole_string) ∅
             (VRef 0%nat) "prefix {{x}} suffix" "x" world_x9); reflexivity.
Defined.

(** C3 as stated fails: a string with a token the resolver does not
    substitute keeps its prefix and suffix, and differs from what the token
    alone gives. *)
Lemma surrounding_text_kept_when_not_substituted :
  re_search "prefix {{x}} suffix" = Some "x" /\
  resolve_value ∅ (VRef 0%nat) (TStr "prefix {{x}} suffix") world_x9 =
    (Ok (VStr "prefix {{x}} suffix"), world_x9) /\
  resolve_value ∅ (VRef 0%nat) (TStr "prefix {{x}} suffix") world_x9 <>
    resolve_value ∅ (VRef 0%nat) (TStr "{{x}}") world_x9.
Proof.
  split; [reflexivity|]. split; [reflexivity|].
  vm_compute. discriminate.
Qed.

(** C4: for a reference [step_id.second.rest...] with at least three
    segments, [step_id] other than [config] and recorded in [step_outputs],
    resolution is the walk of that step's recorded output along the segments
    from the third one on; the second segment plays no part (any other second
    segment gives the same outcome); and when each of those segments is a key
    of the dict reached, the result is the very value stored there, with the
    world unchanged: a stored container comes back as the same reference, no
    object is created. *)
Theorem step_reference_walks_recorded_output
    outs cfg value path step_id second rest result w :
  re_search value = Some path ->
  split_dot path = step_id :: second :: rest ->
  rest <> [] ->
  step_id <> "config" ->
  outs !! step_id = Some result ->
  resolve_value outs cfg (TStr value) w = step_walk result rest w /\
  (forall value' path' second',
     re_search value' = Some path' ->
     split_dot path' = step_id :: second' :: rest ->
     resolve_value outs cfg (TStr value') w =
     resolve_value outs cfg (TStr value) w) /\
  (forall v, stored_at (heap w) result rest = Some v ->
     resolve_value outs cfg (TStr value) w = (Ok v, w)).
Proof.
  intros Hs Hp Hr Hc Ho.
  assert (H1 : resolve_value outs cfg (TStr value) w = step_walk result rest w)
    by (cbn [resolve_value];
        by rewrite (resolve_str_step _ _ _ _ _ _ _ _ Hs Hp Hr Hc Ho)).
  split; [exact H1|]. split.
  - intros value' path' second' Hs' Hp'. rewrite H1. cbn [resolve_value].
    by rewrite (resolve_str_step _ _ _ _ _ _ _ _ Hs' Hp' Hr Hc Ho).
  - intros v Hv. rewrite H1. by apply step_walk_stored.
Qed.

Lemma step_reference_walks_recorded_output_witness :
  resolve_value outputs_s1 (VRef 0%nat) (TStr "{{s1.output.leads}}") world_leads
  = (Ok (VRef 2%nat), world_leads) /\
  heap world_leads !! 2%nat = Some (OList [VInt 1; VInt 2; VInt 3]).
Proof.
  split; [|reflexivity].
  apply (step_reference_walks_recorded_output outputs_s1 (VRef 0%nat)
           "{{s1.output.leads}}" "s1.output.leads" "s1" "output" ["leads"]
           (VRef 1%nat) world_leads);
    [reflexivity | reflexivity | discriminate | discriminate | reflexivity
    | reflexivity].
Defined.

(** C5: a reference whose first segment is [config] is the walk of the
    static configuration along the remaining segments; when every segment is
    found the value stored under the path is returned, and when a key is
    missing from the dict reached at some level the result is an empty
    mapping, not an error.  With [{"a": {"b": 5}}], [{{config.a.b}}] gives
    [5] and [{{config.a.c}}] an empty mapping. *)
Theorem config_reference_walks_static_config outs cfg value path rest w :
  re_search value = Some path ->
  split_dot path = "config" :: rest ->
  resolve_value outs cfg (TStr value) w = config_walk cfg rest w /\
  (forall v, stored_at (heap w) cfg rest = Some v ->
     resolve_value outs cfg (TStr value) w = (Ok v, w)) /\
  (forall pre key post d items,
     rest = pre ++ key :: post ->
     stored_at (heap w) cfg pre = Some d ->
     deref (heap w) d = Some (ODict items) ->
     items !! key = None ->
     returns_empty_mapping (resolve_value outs cfg (TStr value) w)).
Proof.
  intros Hs Hp.
  assert (H1 : resolve_value outs cfg (TStr value) w = config_walk cfg rest w)
    by (cbn [resolve_value]; by rewrite (resolve_str_config _ _ _ _ _ Hs Hp)).
  split; [exact H1|]. split.
  - intros v Hv. rewrite H1. by apply config_walk_stored.
  - intros pre key post d items -> Hst Hd Hk. rewrite H1.
    by apply (config_walk_missing _ _ _ _ _ d items).
Qed.

Lemma config_reference_walks_static_config_witness :
  resolve_value ∅ (VRef 0%nat) (TStr "{{config.a.b}}") world_ab5 =
    (Ok (VInt 5), world_ab5) /\
  returns_empty_mapping
    (resolve_value ∅ (VRef 0%nat) (TStr "{{config.a.c}}") world_ab5).
Proof.
  split.
  - apply (proj1 (proj2 (config_reference_walks_static_config ∅ (VRef 0%nat)
             "{{config.a.b}}" "config.a.b" ["a"; "b"] world_ab5
             eq_refl eq_refl))).
    reflexivity.
  - apply (proj2 (proj2 (config_reference_walks_static_config ∅ (VRef 0%nat)
             "{{config.a.c}}" "config.a.c" ["a"; "c"] world_ab5
             eq_refl eq_refl)) ["a"] "c" [] (VRef 1%nat) {[ "b" := VInt 5 ]});
      reflexivity.
Defined.

(** C10: the walk of the static configuration does not check that the value
    reached is a mapping: when a [config] reference has a further segment
    after a path that leads to a present value which is not a dict,
    [resolve_value] raises [AttributeError]; it does not return an empty
    mapping.  With [{"a": 5}], [{{config.a.b}}] raises. *)
Theorem config_walk_raises_on_non_mapping
    outs cfg value path pre key post v w :
  re_search value = Some path ->
  split_dot path = "config" :: pre ++ key :: post ->
  stored_at (heap w) cfg pre = Some v ->
  is_dict (heap w) v = false ->
  resolve_value outs cfg (TStr value) w = (Raise AttributeError, w) /\
  ~ returns_empty_mapping (resolve_value outs cfg (TStr value) w).
Proof.
  intros Hs Hp Hst Hd.
  assert (H1 : resolve_value outs cfg (TStr value) w = (Raise AttributeError, w)).
  { cbn [resolve_value]. rewrite (resolve_str_config _ _ _ _ _ Hs Hp).
    by apply (config_walk_not_dict _ _ _ _ _ v). }
  split; [exact H1|]. rewrite H1. intros (x & Hx & _). discriminate.
Qed.

Lemma config_walk_raises_on_non_mapping_witness :
  resolve_value ∅ (VRef 0%nat) (TStr "{{config.a.b}}") world_a5 =
  (Raise AttributeError, world_a5).
Proof.
  apply (config_walk_raises_on_non_mapping ∅ (VRef 0%nat) "{{config.a.b}}"
           "config.a.b" ["a"] "b" [] (VInt 5) world_a5);
    reflexivity.
Defined.

(** ** Graph construction *)

Lemma chain_edges_internal l z :
  last l = Some z -> chain_edges l = internal_edges l ++ [(id z, END)].
Proof.
  induction l as [|a rest IH]; [discriminate|].
  destruct rest as [|b r].
  - intros [= ->]. reflexivity.
  - intros Hl. change (last (a :: b :: r)) with (last (b :: r)) in Hl.
    cbn [chain_edges internal_edges]. cbn [chain_edges] in IH.
    rewrite (IH Hl). reflexivity.
Qed.

Lemma chain_edges_sources l : map fst (chain_edges l) = map id l.
Proof. induction l as [|a rest IH]; [reflexivity|]. simpl. by f_equal. Qed.

Lemma chain_edges_lookup_internal l i a b :
  l !! i = Some a -> l !! (i + 1)%nat = Some b ->
  chain_edges l !! i = Some (id a, Node (id b)).
Proof.
  revert i. induction l as [|x rest IH]; intros i; [discriminate|].
  destruct i as [|i]; simpl.
  - intros [= ->]. destruct rest as [|y r]; [discriminate|]. by intros [= ->].
  - apply IH.
Qed.

Lemma chain_edges_lookup_last l z :
  last l = Some z ->
  chain_edges l !! (length l - 1)%nat = Some (id z, END).
Proof.
  induction l as [|a rest IH]; [discriminate|].
  destruct rest as [|b r].
  - by intros [= ->].
  - intros Hl. change (last (a :: b :: r)) with (last (b :: r)) in Hl.
    specialize (IH Hl). simpl in *. by rewrite Nat.sub_0_r in IH.
Qed.

Lemma for_each_app {S A G} (body : G -> A -> M S G) l1 : forall l2 g s,
  for_each body (l1 ++ l2) g s =
  match for_each body l1 g s with
  | (Ok g', s') => for_each body l2 g' s'
  | (Raise e, s') => (Raise e, s')
  end.
Proof.
  induction l1 as [|a rest IH]; intros l2 g s; [reflexivity|].
  cbn [app for_each]. unfold bind.
  destruct (body g a s) as [[g'|e] s']; [apply IH | reflexivity].
Qed.

(** In a list with a repeated id, the first step whose id has occurred
    before it. *)
Lemma first_duplicate (l : list StepSpec) :
  ~ NoDup (map id l) ->
  exists before s after,
    l = before ++ s :: after /\
    NoDup (map id before) /\
    id s ∈ map id before.
Proof.
  induction l as [|x l' IH] using rev_ind; intros Hnd.
  - destruct Hnd. apply NoDup_nil_2.
  - destruct (decide (NoDup (map id l'))) as [Hl'|Hl'].
    + exists l', x, []. split; [reflexivity|]. split; [exact Hl'|].
      destruct (decide (id x ∈ map id l')) as [Hin|Hnotin]; [exact Hin|].
      destruct Hnd. rewrite map_app. apply NoDup_app. split; [exact Hl'|].
      split; [|apply NoDup_singleton].
      intros y Hy Hy'. apply list_elem_of_singleton in Hy'. by subst.
    + destruct (IH Hl') as (before & s & after & -> & Hb & Hin).
      exists before, s, (after ++ [x]). split; [|done].
      by rewrite <- app_assoc.
Qed.

(** The lines of the log leave the heap as it is. *)
Lemma nodes_logged_heap console l : forall w,
  heap (nodes_logged console l w) = heap w.
Proof.
  induction l as [|s rest IH]; intros w; [reflexivity|].
  cbn [nodes_logged]. by rewrite IH.
Qed.

Lemma edges_logged_heap console l : forall w,
  heap (edges_logged console l w) = heap w.
Proof.
  induction l as [|a rest IH]; intros w; [reflexivity|].
  destruct rest as [|b r]; [reflexivity|].
  cbn [edges_logged]. cbn [edges_logged] in IH. by rewrite IH.
Qed.

Lemma graph_logged_heap console l w :
  heap (graph_logged console l w) = heap w.
Proof.
  unfold graph_logged. destruct (last l); cbn [logged heap];
    by rewrite edges_logged_heap, nodes_logged_heap.
Qed.

Section GraphConstruction.
Variable N : Type.
Variable fn : StepSpec -> N.
Variable console : console_handler.

Lemma add_nodes_ok l : forall (g : StateGraph N) w,
  NoDup (map fst (nodes g) ++ map id l) ->
  for_each
    (fun g step =>
       let step_id := id step in
       let agent_name := agent step in
       g <- lift_outcome (add_node step_id (fn step) g) ;;
       log console INFO (LogAddedNode step_id agent_name) ;;;
       ret g)
    l g w =
  (Ok {| nodes := nodes g ++ map (fun s => (id s, fn s)) l;
         entry_point := entry_point g;
         edges := edges g |},
   nodes_logged console l w).
Proof.
  match goal with |- context [for_each ?b] => set (body := b) end.
  induction l as [|a rest IH]; intros g w Hnd; cbn [for_each nodes_logged].
  - cbn [map]. rewrite app_nil_r. by destruct g.
  - unfold bind at 1. unfold body at 1. cbv beta zeta.
    unfold bind at 1. unfold lift_outcome, add_node.
    rewrite bool_decide_false.
    + unfold bind at 1. unfold log at 1. unfold ret at 1.
      rewrite IH; cbn [nodes entry_point edges].
      * cbn [map]. by rewrite <- app_assoc.
      * rewrite map_app, <- app_assoc. exact Hnd.
    + intros Hin. apply NoDup_app in Hnd as (_ & Hdisj & _).
      apply (Hdisj _ Hin). cbn [map]. left.
Qed.

Lemma add_nodes_duplicate before s after : forall (g : StateGraph N) w,
  NoDup (map fst (nodes g) ++ map id before) ->
  id s ∈ map fst (nodes g) ++ map id before ->
  for_each
    (fun g step =>
       let step_id := id step in
       let agent_name := agent step in
       g <- lift_outcome (add_node step_id (fn step) g) ;;
       log console INFO (LogAddedNode step_id agent_name) ;;;
       ret g)
    (before ++ s :: after) g w =
  (Raise (DuplicateStepIdError (id s)), nodes_logged console before w).
Proof.
  intros g w Hnd Hin. rewrite for_each_app, add_nodes_ok by exact Hnd.
  cbn [for_each]. unfold bind at 1. cbv beta zeta. unfold bind at 1.
  unfold lift_outcome, add_node.
  cbn [nodes]. rewrite bool_decide_true; [reflexivity|].
  by rewrite map_app, map_map.
Qed.

Lemma add_edges_ok (all : list StepSpec) rest : forall pre (g : StateGraph N) w,
  all = pre ++ rest ->
  for_each
    (fun g i =>
       current_step <- getitem all i ;;
       next_step <- getitem all (i + 1) ;;
       let g := add_edge (id current_step) (Node (id next_step)) g in
       log console INFO (LogAddedEdge (id current_step) (id next_step)) ;;;
       ret g)
    (seq (length pre) (length rest - 1)) g w =
  (Ok {| nodes := nodes g; entry_point := entry_point g;
         edges := edges g ++ internal_edges rest |},
   edges_logged console rest w).
Proof.
  match goal with |- context [for_each ?b] => set (body := b) end.
  induction rest as [|a rest IH]; intros pre g w Hall.
  - cbn. rewrite app_nil_r. by destruct g.
  - destruct rest as [|b r].
    + cbn. rewrite app_nil_r. by destruct g.
    + replace (length (a :: b :: r) - 1)%nat with (S (length (b :: r) - 1))
        by (simpl; lia).
      assert (H1 : all !! length pre = Some a)
        by (rewrite Hall; apply list_lookup_middle; reflexivity).
      assert (H2 : all !! (length pre + 1)%nat = Some b).
      { rewrite Hall, (cons_middle a pre), app_assoc.
        apply list_lookup_middle. rewrite length_app. reflexivity. }
      cbn [seq for_each edges_logged]. unfold bind at 1. unfold body at 1.
      unfold getitem. rewrite H1, H2. cbv beta zeta.
      unfold bind at 1. unfold ret at 1. unfold bind at 1.
      unfold ret at 1. unfold bind at 1. unfold log at 1. unfold ret at 1.
      replace (S (length pre)) with (length (pre ++ [a]))
        by (rewrite length_app; simpl; lia).
      rewrite (IH (pre ++ [a]))
        by (by rewrite Hall, (cons_middle a pre), app_assoc).
      unfold add_edge. cbn [nodes entry_point edges internal_edges].
      by rewrite <- app_assoc.
Qed.

End GraphConstruction.

(** ** The orchestrator *)

Section OrchestratorProperties.
Variable workflow_config : WorkflowConfig.
Variable load_tools_config : StepSpec -> M world pyval.
Variable ProspectSearchAgent DataEnrichmentAgent ScoringAgent : agent_body.
Variable OutreachContentAgent OutreachExecutorAgent : agent_body.
Variable ResponseTrackerAgent FeedbackTrainerAgent : agent_body.
Variable _print_summary : gmap string pyval -> M world unit.
Variable console : console_handler.

Abbreviation registry :=
  (AGENT_REGISTRY ProspectSearchAgent DataEnrichmentAgent ScoringAgent
     OutreachContentAgent OutreachExecutorAgent ResponseTrackerAgent
     FeedbackTrainerAgent).
Abbreviation node :=
  (node_function workflow_config load_tools_config ProspectSearchAgent
     DataEnrichmentAgent ScoringAgent OutreachContentAgent
     OutreachExecutorAgent ResponseTrackerAgent FeedbackTrainerAgent console).
Abbreviation build :=
  (build_graph workflow_config load_tools_config ProspectSearchAgent
     DataEnrichmentAgent ScoringAgent OutreachContentAgent
     OutreachExecutorAgent ResponseTrackerAgent FeedbackTrainerAgent console).
Abbreviation run_all :=
  (build_and_execute workflow_config load_tools_config ProspectSearchAgent
     DataEnrichmentAgent ScoringAgent OutreachContentAgent
     OutreachExecutorAgent ResponseTrackerAgent FeedbackTrainerAgent
     _print_summary console).
Abbreviation sequence :=
  (run_nodes workflow_config load_tools_config ProspectSearchAgent
     DataEnrichmentAgent ScoringAgent OutreachContentAgent
     OutreachExecutorAgent ResponseTrackerAgent FeedbackTrainerAgent console).

(** The graph built from a well-formed step list, in closed form, and the
    lines the build has logged. *)
Lemma build_graph_chain w :
  steps workflow_config <> [] ->
  NoDup (map id (steps workflow_config)) ->
  build w =
  (Ok {| nodes := map (fun s => (id s, node s)) (steps workflow_config);
         entry_point := id <$> head (steps workflow_config);
         edges := chain_edges (steps workflow_config) |},
   graph_logged console (steps workflow_config) w).
Proof.
  intros Hne Hnd. unfold build_graph, graph_logged.
  unfold bind at 1. unfold log at 1. unfold bind at 1.
  rewrite add_nodes_ok by exact Hnd. cbn [new_graph nodes app].
  destruct (steps workflow_config) as [|first rest] eqn:Hsteps; [done|].
  unfold bind at 1. unfold getitem at 1. cbn [lookup list_lookup]. unfold ret at 1.
  cbv zeta. unfold bind at 1.
  rewrite (add_edges_ok _ console (first :: rest) (first :: rest) [])
    by reflexivity.
  unfold bind at 1. unfold getitem.
  destruct (last (first :: rest)) as [z|] eqn:Hlast.
  - pose proof Hlast as Hl. rewrite last_lookup in Hl.
    replace (length (first :: rest) - 1)%nat with (pred (length (first :: rest)))
      by lia.
    rewrite Hl. unfold ret at 1. unfold bind, log, ret.
    unfold compile, add_edge, set_entry_point.
    cbn [nodes entry_point edges app fmap option_fmap option_map head].
    by rewrite (chain_edges_internal _ _ Hlast).
  - by apply last_None in Hlast.
Qed.

(** The build of a step list with a repeated id: it stops at the first step
    whose id has occurred, when the nodes before it have been added. *)
Lemma build_graph_duplicate before s after w :
  steps workflow_config = before ++ s :: after ->
  NoDup (map id before) ->
  id s ∈ map id before ->
  build w =
  (Raise (DuplicateStepIdError (id s)),
   nodes_logged console before (logged console INFO LogBuilding w)).
Proof.
  intros Hsteps Hnd Hin. unfold build_graph.
  unfold bind at 1. unfold log at 1. unfold bind at 1.
  rewrite Hsteps. by rewrite add_nodes_duplicate.
Qed.

Lemma build_graph_ok_distinct w g w' :
  build w = (Ok g, w') -> NoDup (map id (steps workflow_config)).
Proof.
  intros Hb. destruct (decide (NoDup (map id (steps workflow_config))))
    as [Hnd|Hnd]; [exact Hnd|].
  destruct (first_duplicate _ Hnd) as (before & s & after & Hs & Hb' & Hin).
  rewrite (build_graph_duplicate _ _ _ w Hs Hb' Hin) in Hb. discriminate.
Qed.

(** C6: for a non-empty step list of length n, the graph [build_graph]
    produces has one node per step keyed by its id (the node of step i runs
    step i), entry point [steps[0].id], and exactly n edges: edge i is
    [steps[i].id -> steps[i+1].id] for i in [0, n-2], and the last one is
    [steps[n-1].id -> END]; every step has exactly one outgoing edge, so the
    graph is one linear chain.  A graph is produced exactly when the ids are
    distinct, as the data model requires of a step list. *)
Theorem build_graph_is_linear_chain w :
  steps workflow_config <> [] ->
  (NoDup (map id (steps workflow_config)) <->
   exists g w',
     build_graph workflow_config load_tools_config ProspectSearchAgent
       DataEnrichmentAgent ScoringAgent OutreachContentAgent
       OutreachExecutorAgent ResponseTrackerAgent FeedbackTrainerAgent
       console w
     = (Ok g, w')) /\
  forall g w',
    build_graph workflow_config load_tools_config ProspectSearchAgent
      DataEnrichmentAgent ScoringAgent OutreachContentAgent
      OutreachExecutorAgent ResponseTrackerAgent FeedbackTrainerAgent
      console w
    = (Ok g, w') ->
    map fst (nodes g) = map id (steps workflow_config) /\
    (forall i s, steps workflow_config !! i = Some s ->
       nodes g !! i = Some (id s, node s)) /\
    entry_point g = id <$> steps workflow_config !! 0%nat /\
    length (edges g) = length (steps workflow_config) /\
    (forall i a b,
       steps workflow_config !! i = Some a ->
       steps workflow_config !! (i + 1)%nat = Some b ->
       edges g !! i = Some (id a, Node (id b))) /\
    (forall z, last (steps workflow_config) = Some z ->
       edges g !! (length (steps workflow_config) - 1)%nat = Some (id z, END)) /\
    map fst (edges g) = map id (steps workflow_config).
Proof.
  intros Hne. split.
  - split.
    + intros Hnd. eexists _, _. by apply build_graph_chain.
    + intros (g & w' & Hb). by apply (build_graph_ok_distinct w g w').
  - intros g w' Hb.
    rewrite (build_graph_chain w Hne (build_graph_ok_distinct w g w' Hb)) in Hb.
    injection Hb as <- _. cbn [nodes entry_point edges]. repeat split.
    + rewrite map_map. reflexivity.
    + intros i s Hi. by rewrite list_lookup_fmap, Hi.
    + by destruct (steps workflow_config).
    + rewrite <- (length_map fst), chain_edges_sources. apply length_map.
    + apply chain_edges_lookup_internal.
    + apply chain_edges_lookup_last.
    + apply chain_edges_sources.
Qed.

(** C7, as the code has it: [build_graph] fails on an empty step list with
    [IndexError], raised by [steps[0]] once the first line of the build has
    been logged, and on a step list with a repeated id with the error of the
    graph library's [add_node], at the first step whose id has occurred
    before, once the nodes before it have been added and logged.  Both
    failures come at build time, before any step executes: a run that builds
    and then executes stops with that error, its run state and its heap are
    the ones it started with, and the standard output has gained the lines
    of the build only. *)
Theorem build_graph_rejects_empty_and_duplicate :
  (steps workflow_config = [] ->
     forall r,
       build_graph workflow_config load_tools_config ProspectSearchAgent
         DataEnrichmentAgent ScoringAgent OutreachContentAgent
         OutreachExecutorAgent ResponseTrackerAgent FeedbackTrainerAgent
         console (env r)
       = (Raise IndexError, logged console INFO LogBuilding (env r)) /\
       run_all r =
       (Raise IndexError,
        {| state := state r;
           env := logged console INFO LogBuilding (env r) |})) /\
  (~ NoDup (map id (steps workflow_config)) ->
     exists before s after,
       steps workflow_config = before ++ s :: after /\
       NoDup (map id before) /\
       id s ∈ map id before /\
       forall r,
         build_graph workflow_config load_tools_config ProspectSearchAgent
           DataEnrichmentAgent ScoringAgent OutreachContentAgent
           OutreachExecutorAgent ResponseTrackerAgent FeedbackTrainerAgent
           console (env r)
         = (Raise (DuplicateStepIdError (id s)),
            nodes_logged console before
              (logged console INFO LogBuilding (env r))) /\
         run_all r =
         (Raise (DuplicateStepIdError (id s)),
          {| state := state r;
             env := nodes_logged console before
                      (logged console INFO LogBuilding (env r)) |}) /\
         heap (nodes_logged console before
                 (logged console INFO LogBuilding (env r))) = heap (env r)).
Proof.
  split.
  - intros Hs r.
    assert (Hb : build (env r) =
                 (Raise IndexError, logged console INFO LogBuilding (env r)))
      by (unfold build_graph; rewrite Hs; reflexivity).
    split; [exact Hb|].
    unfold build_and_execute, bind, lift_world. by rewrite Hb.
  - intros Hnd.
    destruct (first_duplicate _ Hnd) as (before & s & after & Hs & Hb & Hin).
    exists before, s, after. split; [exact Hs|]. split; [exact Hb|].
    split; [exact Hin|]. intros r.
    pose proof (build_graph_duplicate _ _ _ (env r) Hs Hb Hin) as Hbuild.
    split; [exact Hbuild|]. split.
    + unfold build_and_execute, bind, lift_world. by rewrite Hbuild.
    + by rewrite nodes_logged_heap.
Qed.

(** *** A run of the built chain visits the steps in their declared order *)

Lemma assoc_nodes_middle {A} (f : StepSpec -> A) pre s post :
  NoDup (map id (pre ++ s :: post)) ->
  assoc (id s) (map (fun x => (id x, f x)) (pre ++ s :: post)) = Some (f s).
Proof.
  induction pre as [|x pre IH]; intros Hnd; simpl.
  - by rewrite bool_decide_true.
  - simpl in Hnd. apply NoDup_cons in Hnd as [Hx Hnd].
    rewrite bool_decide_false; [by apply IH|].
    intros Heq. apply Hx. rewrite Heq, map_app. apply elem_of_app. right. left.
Qed.

Lemma assoc_chain_edges_middle pre s post :
  NoDup (map id (pre ++ s :: post)) ->
  assoc (id s) (chain_edges (pre ++ s :: post)) =
  Some (match post with b :: _ => Node (id b) | [] => END end).
Proof.
  induction pre as [|x pre IH]; intros Hnd.
  - simpl. by rewrite bool_decide_true.
  - change ((x :: pre) ++ s :: post) with (x :: (pre ++ s :: post)) in *.
    cbn [chain_edges assoc]. simpl in Hnd. apply NoDup_cons in Hnd as [Hx Hnd].
    rewrite bool_decide_false; [by apply IH|].
    intros Heq. apply Hx. rewrite Heq, map_app. apply elem_of_app. right. left.
Qed.

Lemma walk_chain all (g : StateGraph (M run unit)) :
  NoDup (map id all) ->
  nodes g = map (fun s => (id s, node s)) all ->
  edges g = chain_edges all ->
  forall post pre s fuel r,
    all = pre ++ s :: post ->
    (length (s :: post) <= fuel)%nat ->
    walk fuel g (id s) r = sequence (s :: post) r.
Proof.
  intros Hnd Hn He. induction post as [|b post IH]; intros pre s fuel r Hall Hf.
  - destruct fuel as [|fuel]; [simpl in Hf; lia|]. cbn [walk run_nodes].
    rewrite Hn, He, Hall, assoc_nodes_middle, assoc_chain_edges_middle
      by (by rewrite <- Hall).
    reflexivity.
  - destruct fuel as [|fuel]; [simpl in Hf; lia|]. cbn [walk].
    rewrite Hn, He, Hall, assoc_nodes_middle, assoc_chain_edges_middle
      by (by rewrite <- Hall).
    change (sequence (s :: b :: post)) with
      (bind (node s) (fun _ => sequence (b :: post))).
    unfold bind. destruct (node s r) as [[[]|e] r']; [|reflexivity].
    apply (IH (pre ++ [s])).
    + by rewrite Hall, <- app_assoc.
    + simpl in *. lia.
Qed.

Lemma invoke_chain w :
  steps workflow_config <> [] ->
  NoDup (map id (steps workflow_config)) ->
  exists g,
    build w = (Ok g, graph_logged console (steps workflow_config) w) /\
    forall r, invoke g r = sequence (steps workflow_config) r.
Proof.
  intros Hne Hnd. eexists. split; [by apply build_graph_chain|]. intros r.
  unfold invoke. cbn [entry_point nodes].
  destruct (steps workflow_config) as [|first rest] eqn:Hs; [done|].
  cbn [head fmap option_fmap option_map].
  eapply (walk_chain (first :: rest)) with (pre := []);
    [exact Hnd | reflexivity | reflexivity | reflexivity |].
  rewrite length_map. reflexivity.
Qed.

Lemma sequence_app pre post r :
  sequence (pre ++ post) r =
  match sequence pre r with
  | (Ok _, r') => sequence post r'
  | (Raise e, r') => (Raise e, r')
  end.
Proof.
  revert r. induction pre as [|s pre IH]; intros r; [reflexivity|].
  simpl. unfold bind. destruct (node s r) as [[[]|e] r']; [apply IH | reflexivity].
Qed.

Lemma sequence_split before s after r r' :
  sequence (before ++ s :: after) r = (Ok tt, r') ->
  exists ra rb,
    sequence before r = (Ok tt, ra) /\
    node s ra = (Ok tt, rb) /\
    sequence after rb = (Ok tt, r').
Proof.
  rewrite sequence_app.
  destruct (sequence before r) as [[[]|e] ra]; [|discriminate].
  cbn [run_nodes]. unfold bind.
  destruct (node s ra) as [[[]|e] rb] eqn:Hs; [|discriminate].
  intros Ha. by exists ra, rb.
Qed.

(** *** Output validation and one node *)

Lemma validate_output_keys_dict keys : forall l items w,
  heap w !! l = Some (ODict items) ->
  validate_output_keys keys (VRef l) w =
  (Ok (bool_decide (first_missing keys items = None)),
   {| heap := heap w;
      stdout := stdout w ++
        match first_missing keys items with
        | Some key => [missing_key_warning key]
        | None => []
        end |}).
Proof.
  induction keys as [|key rest IH]; intros l items w Hl.
  - simpl. rewrite app_nil_r. by destruct w.
  - cbn [validate_output_keys first_missing]. unfold bind, py_contains.
    rewrite Hl. destruct (items !! key) as [v|] eqn:Hk.
    + rewrite bool_decide_true by eauto. by apply IH.
    + rewrite bool_decide_false by (by intros [? ?]). reflexivity.
Qed.

Lemma execute_agent_ok (body : agent_body) step tc inputs w items w1 :
  body step tc inputs w = (Ok items, w1) ->
  execute_agent body step tc inputs w =
  (Ok (VRef (length (heap w1))),
   {| heap := heap w1 ++ [ODict items];
      stdout := stdout w1 ++
        match first_missing (map fst (output_schema step)) items with
        | Some key => [missing_key_warning key]
        | None => []
        end |}).
Proof.
  intros Hb. unfold execute_agent, bind. rewrite Hb. unfold alloc, validate_output.
  rewrite (validate_output_keys_dict _ (length (heap w1)) items).
  - reflexivity.
  - simpl. by rewrite lookup_app_r, Nat.sub_diag.
Qed.

Lemma execute_agent_raise (body : agent_body) step tc inputs w e w1 :
  body step tc inputs w = (Raise e, w1) ->
  execute_agent body step tc inputs w = (Raise e, w1).
Proof. intros Hb. unfold execute_agent, bind. by rewrite Hb. Qed.

Lemma execute_agent_ok_inv (body : agent_body) step tc inputs w output w' :
  execute_agent body step tc inputs w = (Ok output, w') ->
  exists items w1,
    body step tc inputs w = (Ok items, w1) /\
    output = VRef (length (heap w1)) /\
    w' = {| heap := heap w1 ++ [ODict items];
            stdout := stdout w1 ++
              match first_missing (map fst (output_schema step)) items with
              | Some key => [missing_key_warning key]
              | None => []
              end |}.
Proof.
  destruct (body step tc inputs w) as [[items|e] w1] eqn:Hb.
  - rewrite (execute_agent_ok _ _ _ _ _ _ _ Hb). intros [= <- <-].
    by exists items, w1.
  - rewrite (execute_agent_raise _ _ _ _ _ _ _ Hb). discriminate.
Qed.

(** A node, stage by stage: the lines that announce it, the tools, the
    registry, the static configuration, the inputs and their line, the
    capability, and the lines that report it or the line of its failure. *)
Lemma node_function_stages step r :
  node step r =
  match load_tools_config step (node_announced console step (env r)) with
  | (Raise e, w1) => (Raise e, {| state := state r; env := w1 |})
  | (Ok tc, w1) =>
      match registry !! agent step with
      | None =>
          (Raise (ValueError ("Unknown agent: " +:+ agent step)),
           {| state := state r; env := w1 |})
      | Some body =>
          match get_config workflow_config w1 with
          | (Raise e, w2) => (Raise e, {| state := state r; env := w2 |})
          | (Ok cfg, w2) =>
              match _resolve_inputs (step_outputs (state r)) cfg
                      (TDict (inputs step)) w2 with
              | (Raise e, w3) => (Raise e, {| state := state r; env := w3 |})
              | (Ok resolved, w3) =>
                  match execute_agent body step tc resolved
                          (logged console INFO (LogInputs resolved) w3) with
                  | (Ok output, w4) =>
                      (Ok tt,
                       {| state :=
                            {| messages := messages (state r);
                               workflow_data := workflow_data (state r);
                               current_step := id step;
                               step_outputs :=
                                 <[id step := output]> (step_outputs (state r)) |};
                          env := node_reported console output w4 |})
                  | (Raise e, w4) =>
                      (Raise e,
                       {| state := state r;
                          env := logged console ERROR (LogAgentFailed e) w4 |})
                  end
              end
          end
      end
  end.
Proof.
  unfold node_function, bind, lift_world, get_state, try_except, log, raise.
  cbn [env state]. unfold node_announced.
  destruct (load_tools_config step _) as [[tc|e] w1]; [|reflexivity].
  destruct (registry !! agent step) as [body|]; [|reflexivity].
  cbn [env state].
  destruct (get_config workflow_config w1) as [[cfg|e] w2]; [|reflexivity].
  cbn [env state].
  destruct (_resolve_inputs _ cfg _ w2) as [[resolved|e] w3]; [|reflexivity].
  cbn [env state].
  destruct (execute_agent body step tc resolved _) as [[output|e] w4];
    reflexivity.
Qed.

Lemma node_function_executed step r tc w1 body cfg w2 resolved w3 :
  load_tools_config step (node_announced console step (env r)) = (Ok tc, w1) ->
  registry !! agent step = Some body ->
  get_config workflow_config w1 = (Ok cfg, w2) ->
  _resolve_inputs (step_outputs (state r)) cfg (TDict (inputs step)) w2 =
    (Ok resolved, w3) ->
  node step r =
  match execute_agent body step tc resolved
          (logged console INFO (LogInputs resolved) w3) with
  | (Ok output, w4) =>
      (Ok tt,
       {| state := {| messages := messages (state r);
                      workflow_data := workflow_data (state r);
                      current_step := id step;
                      step_outputs :=
                        <[id step := output]> (step_outputs (state r)) |};
          env := node_reported console output w4 |})
  | (Raise e, w4) =>
      (Raise e,
       {| state := state r;
          env := logged console ERROR (LogAgentFailed e) w4 |})
  end.
Proof.
  intros Hl Hr Hc Hi. by rewrite node_function_stages, Hl, Hr, Hc, Hi.
Qed.

(** What a node that returns has gone through. *)
Lemma node_function_ok_inv step r r' :
  node step r = (Ok tt, r') ->
  exists tc w1 body cfg w2 resolved w3 items w4,
    load_tools_config step (node_announced console step (env r)) = (Ok tc, w1) /\
    registry !! agent step = Some body /\
    get_config workflow_config w1 = (Ok cfg, w2) /\
    _resolve_inputs (step_outputs (state r)) cfg (TDict (inputs step)) w2 =
      (Ok resolved, w3) /\
    body step tc resolved (logged console INFO (LogInputs resolved) w3) =
      (Ok items, w4) /\
    r' =
    {| state := {| messages := messages (state r);
                   workflow_data := workflow_data (state r);
                   current_step := id step;
                   step_outputs :=
                     <[id step := VRef (length (heap w4))]>
                       (step_outputs (state r)) |};
       env := node_reported console (VRef (length (heap w4)))
                {| heap := heap w4 ++ [ODict items];
                   stdout := stdout w4 ++
                     match first_missing (map fst (output_schema step)) items with
                     | Some key => [missing_key_warning key]
                     | None => []
                     end |} |}.
Proof.
  rewrite node_function_stages.
  destruct (load_tools_config step _) as [[tc|e] w1] eqn:Hl; [|discriminate].
  destruct (registry !! agent step) as [body|] eqn:Hr; [|discriminate].
  destruct (get_config workflow_config w1) as [[cfg|e] w2] eqn:Hc;
    [|discriminate].
  destruct (_resolve_inputs _ cfg _ w2) as [[resolved|e] w3] eqn:Hi;
    [|discriminate].
  destruct (execute_agent body step tc resolved _) as [[output|e] w4] eqn:He;
    [|discriminate].
  intros [= <-].
  apply execute_agent_ok_inv in He as (items & w4' & Hb & -> & ->).
  by exists tc, w1, body, cfg, w2, resolved, w3, items, w4'.
Qed.

Lemma node_function_inv step r r' :
  node step r = (Ok tt, r') ->
  exists output,
    step_outputs (state r') = <[id step := output]> (step_outputs (state r)).
Proof.
  intros Hn. apply node_function_ok_inv in Hn
    as (tc & w1 & body & cfg & w2 & resolved & w3 & items & w4 & _ & _ & _ & _ & _ & ->).
  by eexists.
Qed.

Lemma sequence_outputs l : forall r r',
  sequence l r = (Ok tt, r') ->
  dom (step_outputs (state r')) =
  dom (step_outputs (state r)) ∪ list_to_set (map id l).
Proof.
  induction l as [|s l IH]; intros r r'.
  - intros [= <-]. simpl. by rewrite (right_id_L ∅ (∪)).
  - cbn [run_nodes]. unfold bind.
    destruct (node s r) as [[[]|e] r1] eqn:Hs; [|discriminate].
    intros Hl. apply node_function_inv in Hs as [output Ho].
    rewrite (IH _ _ Hl), Ho, dom_insert_L. simpl.
    by rewrite (comm_L (∪) {[id s]}), <- (assoc_L (∪)).
Qed.

Lemma sequence_keeps_other_entries l : forall r r' k,
  sequence l r = (Ok tt, r') ->
  k ∉ map id l ->
  step_outputs (state r') !! k = step_outputs (state r) !! k.
Proof.
  induction l as [|s l IH]; intros r r' k.
  - by intros [= <-].
  - cbn [run_nodes]. unfold bind.
    destruct (node s r) as [[[]|e] r1] eqn:Hs; [|discriminate].
    intros Hl Hk. apply not_elem_of_cons in Hk as [Hne Hk].
    apply node_function_inv in Hs as [output Ho].
    rewrite (IH _ _ _ Hl Hk), Ho. by apply lookup_insert_ne.
Qed.

(** Every entry a completed sequence of steps with distinct ids leaves is the
    dict its step's capability returned: the reference the node recorded,
    which held the returned entries when the node ended. *)
Lemma sequence_entries before s after r r' :
  NoDup (map id (before ++ s :: after)) ->
  sequence (before ++ s :: after) r = (Ok tt, r') ->
  exists ra rb tc w1 body cfg w2 resolved w3 items w4,
    sequence before r = (Ok tt, ra) /\
    load_tools_config s (node_announced console s (env ra)) = (Ok tc, w1) /\
    registry !! agent s = Some body /\
    get_config workflow_config w1 = (Ok cfg, w2) /\
    _resolve_inputs (step_outputs (state ra)) cfg (TDict (inputs s)) w2 =
      (Ok resolved, w3) /\
    body s tc resolved (logged console INFO (LogInputs resolved) w3) =
      (Ok items, w4) /\
    sequence (before ++ [s]) r = (Ok tt, rb) /\
    heap (env rb) !! length (heap w4) = Some (ODict items) /\
    step_outputs (state r') !! id s = Some (VRef (length (heap w4))).
Proof.
  intros Hnd Hrun.
  destruct (sequence_split _ _ _ _ _ Hrun) as (ra & rb & Hra & Hnode & Hafter).
  pose proof Hnode as Hn. apply node_function_ok_inv in Hn
    as (tc & w1 & body & cfg & w2 & resolved & w3 & items & w4
        & Hl & Hr & Hc & Hi & Hb & Hrb).
  exists ra, rb, tc, w1, body, cfg, w2, resolved, w3, items, w4.
  repeat (split; [assumption|]). split; [|split].
  - rewrite sequence_app, Hra. cbn [run_nodes]. unfold bind. by rewrite Hnode.
  - rewrite Hrb. cbn [env node_reported logged heap].
    by rewrite lookup_app_r, Nat.sub_diag.
  - rewrite (sequence_keeps_other_entries _ _ _ _ Hafter).
    + rewrite Hrb. cbn [state step_outputs]. apply lookup_insert_eq.
    + rewrite map_app in Hnd. cbn [map] in Hnd.
      apply NoDup_app in Hnd as (_ & _ & Hnd).
      by apply NoDup_cons in Hnd as [Hnotin _].
Qed.

(** *** Failure of a capability *)

(** C8: when the steps before step k complete and the [execute] of step k's
    capability raises [e], the run stops there with [e] itself: the handlers
    of [node_function] and [execute] log one line each and re-raise, nothing
    is retried and no later step runs (the world is the one [execute] left,
    with those two lines).  The run state is the one the completed steps
    left: its outputs are exactly those of the steps before k, step k has
    recorded nothing, and the entry of each step before k is the reference
    to the dict its capability returned. *)
Theorem capability_failure_aborts_run
    pre step post r0 r1 tc w1 body cfg w2 resolved w3 e w4 :
  steps workflow_config = pre ++ step :: post ->
  NoDup (map id (steps workflow_config)) ->
  sequence pre
    {| state := initial_state workflow_config;
       env := execution_announced console
                (graph_logged console (steps workflow_config) (env r0)) |} =
    (Ok tt, r1) ->
  load_tools_config step (node_announced console step (env r1)) = (Ok tc, w1) ->
  registry !! agent step = Some body ->
  get_config workflow_config w1 = (Ok cfg, w2) ->
  _resolve_inputs (step_outputs (state r1)) cfg (TDict (inputs step)) w2 =
    (Ok resolved, w3) ->
  execute_agent body step tc resolved
    (logged console INFO (LogInputs resolved) w3) = (Raise e, w4) ->
  run_all r0 =
    (Raise e,
     {| state := state r1;
        env := logged console ERROR (LogWorkflowFailed e)
                 (logged console ERROR (LogAgentFailed e) w4) |}) /\
  dom (step_outputs (state r1)) = list_to_set (map id pre) /\
  step_outputs (state r1) !! id step = None /\
  (forall before s after,
     pre = before ++ s :: after ->
     exists ra rb tc' w1' body' cfg' w2' resolved' w3' items w4',
       sequence before
         {| state := initial_state workflow_config;
            env := execution_announced console
                     (graph_logged console (steps workflow_config) (env r0)) |} =
         (Ok tt, ra) /\
       load_tools_config s (node_announced console s (env ra)) = (Ok tc', w1') /\
       registry !! agent s = Some body' /\
       get_config workflow_config w1' = (Ok cfg', w2') /\
       _resolve_inputs (step_outputs (state ra)) cfg' (TDict (inputs s)) w2' =
         (Ok resolved', w3') /\
       body' s tc' resolved' (logged console INFO (LogInputs resolved') w3') =
         (Ok items, w4') /\
       sequence (before ++ [s])
         {| state := initial_state workflow_config;
            env := execution_announced console
                     (graph_logged console (steps workflow_config) (env r0)) |} =
         (Ok tt, rb) /\
       heap (env rb) !! length (heap w4') = Some (ODict items) /\
       step_outputs (state r1) !! id s = Some (VRef (length (heap w4')))).
Proof.
  intros Hsteps Hnd Hpre Hl Hr Hc Hi He.
  assert (Hdom : dom (step_outputs (state r1)) = list_to_set (map id pre)).
  { rewrite (sequence_outputs _ _ _ Hpre). simpl. rewrite dom_empty_L.
    by rewrite (left_id_L ∅ (∪)). }
  assert (Hndpre : NoDup (map id pre)).
  { rewrite Hsteps, map_app in Hnd. by apply NoDup_app in Hnd as (? & _ & _). }
  split; [|split; [exact Hdom|split]].
  - destruct (invoke_chain (env r0)) as (g & Hb & Hg);
      [by rewrite Hsteps; destruct pre | done |].
    unfold build_and_execute, bind, lift_world. rewrite Hb.
    unfold execute, try_except, bind, set_state, lift_world, log.
    cbn [state env]. rewrite Hg. fold (execution_announced console
      (graph_logged console (steps workflow_config) (env r0))).
    rewrite Hsteps at 1. rewrite sequence_app, Hpre. cbn [run_nodes].
    unfold bind.
    rewrite (node_function_executed _ _ _ _ _ _ _ _ _ Hl Hr Hc Hi), He.
    reflexivity.
  - apply not_elem_of_dom. rewrite Hdom, elem_of_list_to_set.
    rewrite Hsteps, map_app in Hnd. apply NoDup_app in Hnd as (_ & Hdisj & _).
    intros Hin. apply (Hdisj _ Hin). simpl. left.
  - intros before s after Hsplit. rewrite Hsplit in Hpre, Hndpre.
    apply (sequence_entries _ _ _ _ _ Hndpre Hpre).
Qed.

(** *** Output-schema validation *)

(** C9: whatever entries a capability returns and whatever keys the step's
    output schema declares, [validate_output] returns (a boolean, never an
    exception) and leaves the heap as it is; the node records the output
    under the step id and the run goes on with the next step.  A missing
    declared key shows only as one warning line on the standard output,
    before the three lines with which the node reports the output to the
    log. *)
Theorem output_validation_never_blocks_recording
    step rest r tc w1 body cfg w2 resolved w3 items w4 :
  load_tools_config step (node_announced console step (env r)) = (Ok tc, w1) ->
  registry !! agent step = Some body ->
  get_config workflow_config w1 = (Ok cfg, w2) ->
  _resolve_inputs (step_outputs (state r)) cfg (TDict (inputs step)) w2 =
    (Ok resolved, w3) ->
  body step tc resolved (logged console INFO (LogInputs resolved) w3) =
    (Ok items, w4) ->
  let output := VRef (length (heap w4)) in
  let missing := first_missing (map fst (output_schema step)) items in
  let warning :=
    match missing with
    | Some key => [missing_key_warning key]
    | None => []
    end in
  let w5 := {| heap := heap w4 ++ [ODict items];
               stdout := stdout w4 ++ warning |} in
  let r' := {| state := {| messages := messages (state r);
                           workflow_data := workflow_data (state r);
                           current_step := id step;
                           step_outputs :=
                             <[id step := output]> (step_outputs (state r)) |};
               env := node_reported console output w5 |} in
  validate_output (output_schema step) output
    {| heap := heap w4 ++ [ODict items]; stdout := stdout w4 |} =
    (Ok (bool_decide (missing = None)), w5) /\
  node step r = (Ok tt, r') /\
  step_outputs (state r') !! id step = Some output /\
  deref (heap (env r')) output = Some (ODict items) /\
  stdout (env r') =
    stdout w4 ++ warning ++
    [console INFO (LogOutputKeys output) w5;
     console INFO LogThoughts (logged console INFO (LogOutputKeys output) w5);
     console INFO LogActions
       (logged console INFO LogThoughts
          (logged console INFO (LogOutputKeys output) w5))] /\
  sequence (step :: rest) r = sequence rest r'.
Proof.
  intros Hl Hr Hc Hi Hb output missing warning w5 r'.
  assert (Hnode : node step r = (Ok tt, r')).
  { rewrite (node_function_executed _ _ _ _ _ _ _ _ _ Hl Hr Hc Hi).
    by rewrite (execute_agent_ok _ _ _ _ _ _ _ Hb). }
  assert (Hheap : (heap w4 ++ [ODict items]) !! length (heap w4)
                  = Some (ODict items))
    by (by rewrite lookup_app_r, Nat.sub_diag).
  repeat split.
  - unfold validate_output.
    by rewrite (validate_output_keys_dict _ (length (heap w4)) items).
  - exact Hnode.
  - apply lookup_insert_eq.
  - exact Hheap.
  - cbn [r' env node_reported logged stdout w5].
    by rewrite <- !app_assoc.
  - cbn [run_nodes]. unfold bind. by rewrite Hnode.
Qed.

End OrchestratorProperties.

(** ** Recording an output *)

(** C2, as the code has it: recording is a plain dict assignment.  It
    succeeds in every run state, present id or not; afterwards the id maps to
    the new output (an earlier output of that id is replaced), the other ids
    and the world are as before. *)
Theorem record_always_succeeds_and_overwrites step_id output r :
  exists r',
    record step_id output r = (Ok tt, r') /\
    step_outputs (state r') !! step_id = Some output /\
    (forall other, other <> step_id ->
       step_outputs (state r') !! other = step_outputs (state r) !! other) /\
    env r' = env r.
Proof.
  eexists. split; [reflexivity|]. cbn [state step_outputs env].
  split; [apply lookup_insert_eq|]. split; [|reflexivity].
  intros other Hne. by apply lookup_insert_ne.
Qed.

(** C2 as stated fails: [s1] has the output [1]; recording [2] under [s1]
    succeeds and replaces it. *)
Lemma record_twice_succeeds :
  step_outputs (state run_with_s1) !! "s1" = Some (VInt 1) /\
  exists r',
    record "s1" (VInt 2) run_with_s1 = (Ok tt, r') /\
    step_outputs (state r') !! "s1" = Some (VInt 2).
Proof.
  split; [reflexivity|]. eexists. split; reflexivity.
Qed.

(** ** The examples, through the theorems *)

Lemma example_ids_distinct : NoDup (map id [step_A; step_B; step_C]).
Proof. apply (bool_decide_unpack _). vm_compute. exact I. Defined.

Lemma build_graph_is_linear_chain_witness :
  exists g w',
    example_build wf_ABC empty_world = (Ok g, w') /\
    map fst (nodes g) = ["A"; "B"; "C"] /\
    entry_point g = Some "A" /\
    length (edges g) = 3%nat /\
    edges g !! 0%nat = Some ("A", Node "B") /\
    edges g !! 1%nat = Some ("B", Node "C") /\
    edges g !! 2%nat = Some ("C", END).
Proof.
  destruct (build_graph_is_linear_chain wf_ABC no_tools echo_body silent_body
              failing_body echo_body echo_body echo_body echo_body
              plain_console empty_world)
    as [Hiff Hchain]; [discriminate|].
  destruct (proj1 Hiff example_ids_distinct) as (g & w' & Hb).
  destruct (Hchain g w' Hb) as (Hn & _ & He & Hlen & Hint & Hlast & _).
  exists g, w'. split; [exact Hb|]. split; [exact Hn|]. split; [exact He|].
  split; [exact Hlen|]. split; [|split].
  - exact (Hint 0%nat step_A step_B eq_refl eq_refl).
  - exact (Hint 1%nat step_B step_C eq_refl eq_refl).
  - exact (Hlast step_C eq_refl).
Defined.

(** C7 as stated fails: the build of an empty step list raises
    [IndexError], which is not the [EmptySpecError] of the spec. *)
Lemma empty_step_list_fails_with_index_error :
  (example_build (workflow_of []) empty_world).1 = Raise IndexError /\
  (example_build (workflow_of []) empty_world).1 <> Raise EmptySpecError.
Proof.
  split; [reflexivity | discriminate].
Qed.

Lemma build_graph_rejects_empty_and_duplicate_witness :
  example_run (workflow_of []) (fresh_run (workflow_of [])) =
    (Raise IndexError,
     {| state := initial_state (workflow_of []);
        env := {| heap := [];
                  stdout := [plain_console INFO LogBuilding empty_world] |} |}) /\
  exists name w,
    example_run (workflow_of [step_A; step_B; step_A])
      (fresh_run (workflow_of [step_A; step_B; step_A])) =
      (Raise (DuplicateStepIdError name),
       {| state := initial_state (workflow_of [step_A; step_B; step_A]);
          env := w |}) /\
    heap w = [].
Proof.
  split.
  - apply (proj1 (build_graph_rejects_empty_and_duplicate (workflow_of [])
             no_tools echo_body silent_body failing_body echo_body echo_body
             echo_body echo_body no_summary plain_console) eq_refl
             (fresh_run (workflow_of []))).
  - destruct (proj2 (build_graph_rejects_empty_and_duplicate
                (workflow_of [step_A; step_B; step_A])
                no_tools echo_body silent_body failing_body echo_body
                echo_body echo_body echo_body no_summary plain_console))
      as (before & s & after & _ & _ & _ & Hall).
    + apply (bool_decide_unpack _). vm_compute. exact I.
    + destruct (Hall (fresh_run (workflow_of [step_A; step_B; step_A])))
        as (_ & Hrun & Hheap).
      eexists _, _. split; [exact Hrun | exact Hheap].
Defined.

Lemma capability_failure_aborts_run_witness :
  exists r,
    example_run wf_ABC (fresh_run wf_ABC) = (Raise (CapabilityError "boom"), r) /\
    dom (step_outputs (state r)) = list_to_set ["A"] /\
    step_outputs (state r) !! "B" = None /\
    step_outputs (state r) !! "A" = Some (VRef 3%nat) /\
    heap (env r) !! 3%nat = Some (ODict {[ "y" := VRef 2%nat ]}) /\
    drop 22 (stdout (env r)) =
      [plain_console ERROR (LogAgentFailed (CapabilityError "boom")) empty_world;
       plain_console ERROR (LogWorkflowFailed (CapabilityError "boom"))
         empty_world].
Proof.
  edestruct (capability_failure_aborts_run wf_ABC no_tools echo_body
               silent_body failing_body echo_body echo_body echo_body
               echo_body no_summary plain_console [step_A] step_B [step_C]
               (fresh_run wf_ABC))
    as (Hrun & Hdom & Hnone & _).
  - reflexivity.
  - exact example_ids_distinct.
  - vm_compute. reflexivity.
  - reflexivity.
  - reflexivity.
  - reflexivity.
  - reflexivity.
  - reflexivity.
  - eexists. split; [exact Hrun|]. split; [exact Hdom|].
    split; [exact Hnone|]. repeat split; reflexivity.
Defined.

Lemma output_validation_never_blocks_recording_witness :
  exists r',
    example_node wf_ABC step_C (fresh_run wf_ABC) = (Ok tt, r') /\
    step_outputs (state r') !! "C" = Some (VRef 3%nat) /\
    heap (env r') !! 3%nat = Some (ODict ∅) /\
    stdout (env r') =
      [plain_console INFO LogRuleNewline empty_world;
       plain_console INFO (LogExecuting "DataEnrichmentAgent" "C") empty_world;
       plain_console INFO LogRule empty_world;
       plain_console INFO (LogInputs (VRef 2%nat)) empty_world;
       missing_key_warning "enriched_leads";
       plain_console INFO (LogOutputKeys (VRef 3%nat)) empty_world;
       plain_console INFO LogThoughts empty_world;
       plain_console INFO LogActions empty_world].
Proof.
  edestruct (output_validation_never_blocks_recording wf_ABC no_tools
               echo_body silent_body failing_body echo_body echo_body
               echo_body echo_body plain_console step_C []
               (fresh_run wf_ABC))
    as (_ & Hnode & Hrec & Hobj & Hout & _).
  - reflexivity.
  - reflexivity.
  - reflexivity.
  - reflexivity.
  - reflexivity.
  - eexists. split; [exact Hnode|]. split; [exact Hrec|].
    split; [exact Hobj | exact Hout].
Defined.

(** ** Further properties of the resolver *)

Lemma template_nested_ind (P : template -> Prop) :
  P TNone ->
  (forall b, P (TBool b)) ->
  (forall n, P (TInt n)) ->
  (forall s, P (TStr s)) ->
  (forall items, Forall (fun kv => P (snd kv)) items -> P (TDict items)) ->
  (forall items, Forall P items -> P (TList items)) ->
  forall t, P t.
Proof.
  intros HN HB HI HS HD HL. fix IH 1. intros [|b|n|s|items|items].
  - exact HN.
  - apply HB.
  - apply HI.
  - apply HS.
  - apply HD. induction items as [|[k v] rest IHr]; constructor;
      [apply IH | exact IHr].
  - apply HL. induction items as [|v rest IHr]; constructor;
      [apply IH | exact IHr].
Qed.

Lemma only_allocates_refl w : only_allocates w w.
Proof. split; [exists []; by rewrite app_nil_r | reflexivity]. Qed.

Lemma only_allocates_trans w1 w2 w3 :
  only_allocates w1 w2 -> only_allocates w2 w3 -> only_allocates w1 w3.
Proof.
  intros [[n1 H1] S1] [[n2 H2] S2]. split.
  - exists (n1 ++ n2). by rewrite H2, H1, <- app_assoc.
  - congruence.
Qed.

Lemma alloc_only_allocates o w : only_allocates w (alloc o w).2.
Proof. split; [by exists [o] | reflexivity]. Qed.

Lemma dict_get_default_only_allocates result part w :
  only_allocates w (dict_get_default result part w).2.
Proof.
  unfold dict_get_default.
  destruct (deref (heap w) result) as [[items|]|];
    try apply only_allocates_refl.
  destruct (items !! part); [apply only_allocates_refl|].
  apply alloc_only_allocates.
Qed.

Lemma bind_only_allocates {A B} (c : M world A) (k : A -> M world B) w :
  only_allocates w (c w).2 ->
  (forall a w', only_allocates w' (k a w').2) ->
  only_allocates w (bind c k w).2.
Proof.
  intros Hc Hk. unfold bind. destruct (c w) as [[a|e] w1]; [|exact Hc].
  exact (only_allocates_trans _ _ _ Hc (Hk a w1)).
Qed.

Lemma config_walk_only_allocates parts : forall result w,
  only_allocates w (config_walk result parts w).2.
Proof.
  induction parts as [|part rest IH]; intros result w.
  - apply only_allocates_refl.
  - cbn [config_walk]. apply bind_only_allocates;
      [apply dict_get_default_only_allocates | intros; apply IH].
Qed.

Lemma step_walk_only_allocates parts : forall result w,
  only_allocates w (step_walk result parts w).2.
Proof.
  induction parts as [|part rest IH]; intros result w.
  - apply only_allocates_refl.
  - cbn [step_walk]. destruct (is_dict (heap w) result); [|apply IH].
    apply bind_only_allocates;
      [apply dict_get_default_only_allocates | intros; apply IH].
Qed.

Lemma resolve_str_only_allocates outs cfg value w :
  only_allocates w (resolve_str outs cfg value w).2.
Proof.
  unfold resolve_str. destruct (re_search value) as [path|];
    [|apply only_allocates_refl].
  cbv zeta. case_bool_decide; [apply config_walk_only_allocates|].
  case_bool_decide; [|apply only_allocates_refl].
  destruct (outs !! _); [apply step_walk_only_allocates|].
  apply only_allocates_refl.
Qed.

Lemma resolve_value_extends outs cfg : forall value w,
  only_allocates w (resolve_value outs cfg value w).2.
Proof.
  induction value as [| | | s | items IH | items IH] using template_nested_ind;
    intros w; try apply only_allocates_refl.
  - apply resolve_str_only_allocates.
  - cbn [resolve_value].
    match goal with |- context [bind (?f ∅ items)] => set (go := f) end.
    assert (Hgo : forall acc w', only_allocates w' (go acc items w').2).
    { clear w. induction IH as [|[k v] rest Hv _ IHr]; intros acc w'.
      - apply only_allocates_refl.
      - unfold go; cbn; fold go. apply bind_only_allocates;
          [apply Hv | intros; apply IHr]. }
    apply bind_only_allocates; [apply Hgo | intros; apply alloc_only_allocates].
  - cbn [resolve_value].
    match goal with |- context [bind (?f items)] => set (go := f) end.
    assert (Hgo : forall w', only_allocates w' (go items w').2).
    { clear w. induction IH as [|v rest Hv _ IHr]; intros w'.
      - apply only_allocates_refl.
      - unfold go; cbn; fold go. apply bind_only_allocates; [apply Hv|].
        intros r w1. apply bind_only_allocates; [apply IHr|].
        intros; apply only_allocates_refl. }
    apply bind_only_allocates; [apply Hgo | intros; apply alloc_only_allocates].
Qed.

Lemma step_walk_returns parts : forall result w,
  exists v w', step_walk result parts w = (Ok v, w').
Proof.
  induction parts as [|part rest IH]; intros result w.
  - by exists result, w.
  - cbn [step_walk]. unfold is_dict, bind, dict_get_default.
    destruct (deref (heap w) result) as [[items|]|]; try apply IH.
    destruct (items !! part); [apply IH|]. apply IH.
Qed.

Lemma resolve_str_returns outs cfg value w :
  str_config_free value = true ->
  exists v w', resolve_str outs cfg value w = (Ok v, w').
Proof.
  unfold str_config_free, resolve_str.
  destruct (re_search value) as [path|]; [|by exists (VStr value), w].
  cbv zeta. case_bool_decide; [discriminate|]. intros _.
  case_bool_decide; [|by exists (VStr value), w].
  destruct (outs !! _); [apply step_walk_returns|].
  by exists (VStr value), w.
Qed.

(** X2: a template none of whose strings has a [config] reference as its
    first token always resolves: references to step outputs never raise,
    whatever has been recorded and whatever the heap holds, because the walk
    of a step output skips the values that are not dicts. *)
Theorem resolve_value_without_config_returns outs cfg : forall value w,
  config_free value = true ->
  exists v w', resolve_value outs cfg value w = (Ok v, w').
Proof.
  induction value as [| | | s | items IH | items IH] using template_nested_ind;
    intros w Hfree; try (eexists _, _; reflexivity).
  - by apply resolve_str_returns.
  - cbn [resolve_value config_free] in *.
    match goal with |- context [bind (?f ∅ items)] => set (go := f) end.
    assert (Hgo : forall acc w', exists m w'', go acc items w' = (Ok m, w'')).
    { clear w. induction IH as [|[k v] rest Hv _ IHr]; intros acc w'.
      - by exists acc, w'.
      - cbn [forallb] in Hfree. apply andb_prop in Hfree as [Hk Hrest].
        cbn [snd] in Hv, Hk.
        unfold go; cbn; fold go. unfold bind.
        destruct (Hv w' Hk) as (r & w1 & ->). by apply IHr. }
    unfold bind. destruct (Hgo ∅ w) as (m & w1 & ->).
    eexists _, _. reflexivity.
  - cbn [resolve_value config_free] in *.
    match goal with |- context [bind (?f items)] => set (go := f) end.
    assert (Hgo : forall w', exists rs w'', go items w' = (Ok rs, w'')).
    { clear w. induction IH as [|v rest Hv _ IHr]; intros w'.
      - by exists [], w'.
      - cbn [forallb] in Hfree. apply andb_prop in Hfree as [Hk Hrest].
        unfold go; cbn; fold go. unfold bind.
        destruct (Hv w' Hk) as (r & w1 & ->).
        destruct (IHr Hrest w1) as (rs & w2 & ->).
        eexists _, _. reflexivity. }
    unfold bind. destruct (Hgo w) as (rs & w1 & ->).
    eexists _, _. reflexivity.
Qed.

Lemma resolve_value_without_config_returns_witness :
  exists v w',
    resolve_value outputs_s1 (VRef 0%nat)
      (TDict [("a", TStr "{{s1.output.leads.first.name}}");
              ("b", TList [TStr "{{missing.output.x}}"; TInt 3])])
      world_leads = (Ok v, w').
Proof.
  apply (resolve_value_without_config_returns outputs_s1 (VRef 0%nat)
           (TDict [("a", TStr "{{s1.output.leads.first.name}}");
                   ("b", TList [TStr "{{missing.output.x}}"; TInt 3])])
           world_leads).
  reflexivity.
Defined.

Lemma resolve_value_dict outs cfg items w :
  resolve_value outs cfg (TDict items) w =
  bind (resolve_items outs cfg ∅ items) (fun m => alloc (ODict m)) w.
Proof.
  cbn [resolve_value].
  match goal with |- context [bind (?f ∅ items)] => set (go := f) end.
  assert (Hgo : forall acc w', go acc items w' = resolve_items outs cfg acc items w').
  { induction items as [|[k v] rest IH]; intros acc w'; [reflexivity|].
    unfold go; cbn; fold go. unfold bind.
    destruct (resolve_value outs cfg v w') as [[r|e] w1]; [apply IH | reflexivity]. }
  unfold bind. by rewrite Hgo.
Qed.

Lemma resolve_value_list outs cfg items w :
  resolve_value outs cfg (TList items) w =
  bind (resolve_elems outs cfg items) (fun rs => alloc (OList rs)) w.
Proof.
  cbn [resolve_value].
  match goal with |- context [bind (?f items)] => set (go := f) end.
  assert (Hgo : forall w', go items w' = resolve_elems outs cfg items w').
  { induction items as [|v rest IH]; intros w'; [reflexivity|].
    unfold go; cbn; fold go. unfold bind.
    destruct (resolve_value outs cfg v w') as [[r|e] w1]; [|reflexivity].
    by rewrite IH. }
  unfold bind. by rewrite Hgo.
Qed.

Lemma step_walk_app pre : forall result post w,
  step_walk result (pre ++ post) w =
  match step_walk result pre w with
  | (Ok v, w') => step_walk v post w'
  | (Raise e, w') => (Raise e, w')
  end.
Proof.
  induction pre as [|part pre IH]; intros result post w; [reflexivity|].
  cbn [app step_walk]. destruct (is_dict (heap w) result); [|apply IH].
  unfold bind. destruct (dict_get_default result part w) as [[r|e] w'];
    [apply IH | reflexivity].
Qed.

Lemma step_walk_not_dict parts : forall v w,
  is_dict (heap w) v = false -> step_walk v parts w = (Ok v, w).
Proof.
  induction parts as [|part rest IH]; intros v w Hd; [reflexivity|].
  cbn [step_walk]. rewrite Hd. by apply IH.
Qed.

Lemma step_walk_empty post : forall w v,
  is_empty_mapping (heap w) v ->
  returns_empty_mapping (step_walk v post w).
Proof.
  induction post as [|part post IH]; intros w v Hv.
  - exists v. split; [reflexivity | exact Hv].
  - destruct Hv as (l & -> & Hl). cbn [step_walk].
    unfold is_dict, bind, dict_get_default. cbn [deref]. rewrite Hl, lookup_empty.
    apply IH, alloc_empty_is_empty.
Qed.

(** X3: in a reference to a step output, once the walk reaches a present
    value that is not a dict (a list, a number, a string), the remaining
    segments are ignored and that value is the result; nothing is raised and
    nothing is allocated.  (The walk of the configuration raises there.) *)
Theorem step_reference_stops_at_non_mapping
    outs cfg value path step_id second pre post result v w :
  re_search value = Some path ->
  split_dot path = step_id :: second :: pre ++ post ->
  pre ++ post <> [] ->
  step_id <> "config" ->
  outs !! step_id = Some result ->
  stored_at (heap w) result pre = Some v ->
  is_dict (heap w) v = false ->
  resolve_value outs cfg (TStr value) w = (Ok v, w).
Proof.
  intros Hs Hp Hne Hc Ho Hst Hd. cbn [resolve_value].
  rewrite (resolve_str_step _ _ _ _ _ _ _ _ Hs Hp Hne Hc Ho).
  rewrite step_walk_app, (step_walk_stored _ _ _ _ Hst).
  by apply step_walk_not_dict.
Qed.

Lemma step_reference_stops_at_non_mapping_witness :
  resolve_value outputs_s1 (VRef 0%nat)
    (TStr "{{s1.output.leads.first.name}}") world_leads =
  (Ok (VRef 2%nat), world_leads).
Proof.
  apply (step_reference_stops_at_non_mapping outputs_s1 (VRef 0%nat)
           "{{s1.output.leads.first.name}}" "s1.output.leads.first.name"
           "s1" "output" ["leads"] ["first"; "name"] (VRef 1%nat));
    [reflexivity | reflexivity | discriminate | discriminate | reflexivity
    | reflexivity | reflexivity].
Defined.

(** X4: in a reference to a recorded step output, a key missing from the
    dict reached at some level gives an empty mapping, whatever segments
    follow. *)
Theorem step_reference_missing_key_gives_empty_mapping
    outs cfg value path step_id second pre key post result d items w :
  re_search value = Some path ->
  split_dot path = step_id :: second :: pre ++ key :: post ->
  step_id <> "config" ->
  outs !! step_id = Some result ->
  stored_at (heap w) result pre = Some d ->
  deref (heap w) d = Some (ODict items) ->
  items !! key = None ->
  returns_empty_mapping (resolve_value outs cfg (TStr value) w).
Proof.
  intros Hs Hp Hc Ho Hst Hd Hk. cbn [resolve_value].
  rewrite (resolve_str_step _ _ _ _ _ _ _ _ Hs Hp) by (done || by destruct pre).
  rewrite step_walk_app, (step_walk_stored _ _ _ _ Hst).
  cbn [step_walk]. unfold is_dict, bind, dict_get_default. rewrite Hd, Hk.
  apply step_walk_empty, alloc_empty_is_empty.
Qed.

Lemma step_reference_missing_key_gives_empty_mapping_witness :
  returns_empty_mapping
    (resolve_value outputs_s1 (VRef 0%nat)
       (TStr "{{s1.output.scores.top}}") world_leads).
Proof.
  apply (step_reference_missing_key_gives_empty_mapping outputs_s1
           (VRef 0%nat) "{{s1.output.scores.top}}" "s1.output.scores.top"
           "s1" "output" [] "scores" ["top"] (VRef 1%nat) (VRef 1%nat)
           {[ "leads" := VRef 2%nat ]});
    [reflexivity | reflexivity | discriminate | reflexivity | reflexivity
    | reflexivity | reflexivity].
Defined.

(** X1: whatever the template, the recorded outputs and the configuration,
    and whether it returns or raises, the resolver only adds new objects to
    the heap: every object that existed keeps its address and its content,
    and nothing is printed. *)
Theorem resolve_value_only_allocates outs cfg value w :
  stdout (resolve_value outs cfg value w).2 = stdout w /\
  (length (heap w) <= length (heap (resolve_value outs cfg value w).2))%nat /\
  forall l o, heap w !! l = Some o ->
    heap (resolve_value outs cfg value w).2 !! l = Some o.
Proof.
  destruct (resolve_value_extends outs cfg value w) as [[new Hh] Hs].
  split; [exact Hs|]. rewrite Hh. split.
  - rewrite length_app. lia.
  - intros l o Hl. by apply lookup_app_l_Some.
Qed.

Lemma resolve_elems_spec outs cfg items : forall w rs w1,
  resolve_elems outs cfg items w = (Ok rs, w1) ->
  only_allocates w w1 /\
  Forall2 (fun t r => exists wa wb,
             only_allocates w wa /\
             resolve_value outs cfg t wa = (Ok r, wb)) items rs.
Proof.
  induction items as [|v rest IH]; intros w rs w1.
  - intros [= <- <-]. split; [apply only_allocates_refl | constructor].
  - cbn [resolve_elems]. unfold bind.
    pose proof (resolve_value_extends outs cfg v w) as Hext.
    destruct (resolve_value outs cfg v w) as [[r|e] w2] eqn:Hv; [|discriminate].
    destruct (resolve_elems outs cfg rest w2) as [[rs'|e] w3] eqn:Hr;
      [|discriminate].
    intros [= <- <-]. destruct (IH _ _ _ Hr) as [Hext' Hall]. cbn [snd] in Hext.
    split; [exact (only_allocates_trans _ _ _ Hext Hext')|].
    constructor.
    + exists w, w2. split; [apply only_allocates_refl | exact Hv].
    + eapply Forall2_impl; [exact Hall|].
      intros t r' (wa & wb & Hwa & Hres). exists wa, wb.
      split; [exact (only_allocates_trans _ _ _ Hext Hwa) | exact Hres].
Qed.

(** X5: when a list template resolves, the result is a new list object (its
    address is none of the heap before) with one element per element of the
    template, in the same order: element i is what element i of the template
    resolved to. *)
Theorem resolve_value_list_preserves_order outs cfg items w v w' :
  resolve_value outs cfg (TList items) w = (Ok v, w') ->
  exists l rs,
    v = VRef l /\
    (length (heap w) <= l)%nat /\
    heap w' !! l = Some (OList rs) /\
    Forall2 (fun t r => exists wa wb,
               only_allocates w wa /\
               resolve_value outs cfg t wa = (Ok r, wb)) items rs.
Proof.
  rewrite resolve_value_list. unfold bind.
  destruct (resolve_elems outs cfg items w) as [[rs|e] w1] eqn:Hr;
    [|discriminate].
  intros [= <- <-]. destruct (resolve_elems_spec _ _ _ _ _ _ Hr) as [[[new Hh] _] Hall].
  exists (length (heap w1)), rs. split; [reflexivity|]. split.
  - rewrite Hh, length_app. lia.
  - split; [|exact Hall]. cbn [heap]. by rewrite lookup_app_r, Nat.sub_diag.
Qed.

Lemma resolve_value_list_preserves_order_witness :
  exists l rs,
    VRef 1%nat = VRef l /\
    (length (heap world_x9) <= l)%nat /\
    [ODict {[ "x" := VInt 9 ]}; OList [VInt 9; VStr "plain"; VInt 3]] !! l
      = Some (OList rs) /\
    Forall2 (fun t r => exists wa wb,
               only_allocates world_x9 wa /\
               resolve_value ∅ (VRef 0%nat) t wa = (Ok r, wb))
      [TStr "{{config.x}}"; TStr "plain"; TInt 3] rs.
Proof.
  apply (resolve_value_list_preserves_order ∅ (VRef 0%nat)
           [TStr "{{config.x}}"; TStr "plain"; TInt 3] world_x9 (VRef 1%nat)
           {| heap := [ODict {[ "x" := VInt 9 ]};
                       OList [VInt 9; VStr "plain"; VInt 3]];
              stdout := [] |}).
  reflexivity.
Defined.

Lemma resolve_items_spec outs cfg kvs : forall acc w m w1,
  resolve_items outs cfg acc kvs w = (Ok m, w1) ->
  only_allocates w w1 /\
  dom m = dom acc ∪ list_to_set (map fst kvs) /\
  forall k r, m !! k = Some r ->
    acc !! k = Some r \/
    exists t wa wb,
      (k, t) ∈ kvs /\ only_allocates w wa /\
      resolve_value outs cfg t wa = (Ok r, wb).
Proof.
  induction kvs as [|[k v] rest IH]; intros acc w m w1.
  - intros [= <- <-]. split; [apply only_allocates_refl|]. split.
    + simpl. by rewrite (right_id_L ∅ (∪)).
    + intros k r Hk. by left.
  - cbn [resolve_items]. unfold bind.
    pose proof (resolve_value_extends outs cfg v w) as Hext.
    destruct (resolve_value outs cfg v w) as [[r|e] w2] eqn:Hv; [|discriminate].
    intros Hr. destruct (IH _ _ _ _ Hr) as (Hext' & Hdom & Hval).
    cbn [snd] in Hext.
    split; [exact (only_allocates_trans _ _ _ Hext Hext')|]. split.
    + rewrite Hdom, dom_insert_L. simpl.
      by rewrite (comm_L (∪) {[k]}), <- (assoc_L (∪)).
    + intros k' r' Hk'. destruct (Hval k' r' Hk') as [Hacc | (t & wa & wb & Hin & Hwa & Hres)].
      * destruct (decide (k = k')) as [<-|Hne].
        -- rewrite lookup_insert_eq in Hacc. injection Hacc as <-.
           right. exists v, w, w2.
           split; [left | split; [apply only_allocates_refl | exact Hv]].
        -- rewrite lookup_insert_ne in Hacc by done. by left.
      * right. exists t, wa, wb. split; [by right|].
        split; [exact (only_allocates_trans _ _ _ Hext Hwa) | exact Hres].
Qed.

(** X6: when a dict template resolves, the result is a new dict object (its
    address is none of the heap before) with exactly the keys of the
    template, and the value under each key is what a value of the template
    under that key resolved to. *)
Theorem resolve_value_dict_preserves_keys outs cfg items w v w' :
  resolve_value outs cfg (TDict items) w = (Ok v, w') ->
  exists l m,
    v = VRef l /\
    (length (heap w) <= l)%nat /\
    heap w' !! l = Some (ODict m) /\
    dom m = list_to_set (map fst items) /\
    forall k r, m !! k = Some r ->
      exists t wa wb,
        (k, t) ∈ items /\ only_allocates w wa /\
        resolve_value outs cfg t wa = (Ok r, wb).
Proof.
  rewrite resolve_value_dict. unfold bind.
  destruct (resolve_items outs cfg ∅ items w) as [[m|e] w1] eqn:Hr;
    [|discriminate].
  intros [= <- <-].
  destruct (resolve_items_spec _ _ _ _ _ _ _ Hr) as ([[new Hh] _] & Hdom & Hval).
  exists (length (heap w1)), m. split; [reflexivity|]. split.
  - rewrite Hh, length_app. lia.
  - split; [cbn [heap]; by rewrite lookup_app_r, Nat.sub_diag|]. split.
    + rewrite Hdom, dom_empty_L. by rewrite (left_id_L ∅ (∪)).
    + intros k r Hk. destruct (Hval k r Hk) as [Hacc|H]; [|exact H].
      by rewrite lookup_empty in Hacc.
Qed.

(** ** [extract_variable_references] and the resolver *)

Lemma findall_from_well_formed value : forall skip g,
  g ∈ findall_from skip value ->
  g <> EmptyString /\ has_close g = false.
Proof.
  induction value as [|c t IH]; intros skip g.
  - cbn [findall_from]. by intros ?%elem_of_nil.
  - cbn [findall_from]. destruct skip as [|k]; [|apply IH].
    destruct (match_here (String c t)) as [g'|] eqn:Em; [|apply IH].
    intros [->|Hin]%elem_of_cons; [|by apply IH in Hin].
    apply match_here_sound in Em as (Hne & Hg & _). by split.
Qed.

Lemma findall_from_head value :
  head (findall_from 0 value) = re_search value.
Proof.
  induction value as [|c t IH]; [reflexivity|].
  cbn [findall_from re_search].
  destruct (match_here (String c t)) as [g|]; [reflexivity | exact IH].
Qed.

(** X7: the references [extract_variable_references] lists are well formed
    (not empty, without closing brace); the first one is the reference the
    resolver acts on, the later ones are never looked at; and a string for
    which it lists none is a literal for the resolver. *)
Theorem extract_variable_references_agrees_with_resolver value :
  (forall g, g ∈ extract_variable_references value ->
     g <> EmptyString /\ has_close g = false) /\
  head (extract_variable_references value) = re_search value /\
  (forall outs cfg w path,
     head (extract_variable_references value) = Some path ->
     resolvable outs path = true ->
     resolve_value outs cfg (TStr value) w =
     resolve_value outs cfg (TStr (token path)) w) /\
  (forall outs cfg w,
     extract_variable_references value = [] ->
     resolve_value outs cfg (TStr value) w = (Ok (VStr value), w)).
Proof.
  unfold extract_variable_references. split; [apply findall_from_well_formed|].
  split; [apply findall_from_head|]. split.
  - intros outs cfg w path Hh Hr. rewrite findall_from_head in Hh.
    cbn [resolve_value].
    by rewrite (resolve_str_same_token outs cfg value (token path) path Hh
                  (re_search_token _ _ Hh) Hr).
  - intros outs cfg w Hnil. pose proof (findall_from_head value) as Hh.
    rewrite Hnil in Hh. cbn [resolve_value]. unfold resolve_str.
    by rewrite <- Hh.
Qed.

(** ** Output validation: [validate_output] and [validate_step_output] *)

Lemma first_missing_none keys items :
  first_missing keys items = None <->
  forall k, k ∈ keys -> is_Some (items !! k).
Proof.
  induction keys as [|key rest IH]; cbn [first_missing].
  - split; [intros _ k Hk; by apply elem_of_nil in Hk | done].
  - destruct (items !! key) as [v|] eqn:Hk.
    + rewrite IH. split.
      * intros H k [->|Hin]%elem_of_cons; [by rewrite Hk | by apply H].
      * intros H k Hin. apply H. by right.
    + split; [discriminate|]. intros H.
      destruct (H key) as [v Hv]; [left | congruence].
Qed.

Lemma first_missing_some keys items k :
  first_missing keys items = Some k -> k ∈ keys /\ items !! k = None.
Proof.
  induction keys as [|key rest IH]; cbn [first_missing]; [discriminate|].
  destruct (items !! key) as [v|] eqn:Hk.
  - intros H. destruct (IH H). split; [by right | done].
  - intros [= <-]. split; [left | done].
Qed.

(** X8: on a dict output, [validate_output] returns [True] exactly when every
    key of the schema is a key of the output (keys the schema does not
    declare play no part); then nothing is printed.  It returns [False] with
    one warning, naming a declared key the output lacks.  The heap is never
    touched. *)
Theorem validate_output_true_iff_all_keys_present schema l items w :
  heap w !! l = Some (ODict items) ->
  exists b w',
    validate_output schema (VRef l) w = (Ok b, w') /\
    heap w' = heap w /\
    (b = true <-> forall k, k ∈ map fst schema -> is_Some (items !! k)) /\
    (b = true -> w' = w) /\
    (b = false -> exists k,
        k ∈ map fst schema /\ items !! k = None /\
        stdout w' = stdout w ++ [missing_key_warning k]).
Proof.
  intros Hl. unfold validate_output.
  rewrite (validate_output_keys_dict _ l items w Hl).
  eexists _, _. split; [reflexivity|]. cbn [heap stdout].
  split; [reflexivity|].
  destruct (first_missing (map fst schema) items) as [k|] eqn:Hm.
  - rewrite bool_decide_false by discriminate. split; [|split].
    + split; [discriminate|]. intros H. apply first_missing_none in H. congruence.
    + discriminate.
    + intros _. exists k. apply first_missing_some in Hm as [Hin Hk]. done.
  - rewrite bool_decide_true by done. split; [|split].
    + split; [intros _; by apply first_missing_none | done].
    + intros _. rewrite app_nil_r. by destruct w.
    + discriminate.
Qed.

Lemma validate_output_true_iff_all_keys_present_witness :
  exists b w',
    validate_output [("leads", TList []); ("total", TInt 0)] (VRef 1%nat)
      world_leads = (Ok b, w') /\
    b = false /\
    stdout w' = [missing_key_warning "total"].
Proof.
  destruct (validate_output_true_iff_all_keys_present
              [("leads", TList []); ("total", TInt 0)] 1%nat
              {[ "leads" := VRef 2%nat ]} world_leads eq_refl)
    as (b & w' & Hv & _ & _ & _ & _).
  exists b, w'. split; [exact Hv|].
  vm_compute in Hv. injection Hv as <- <-. split; reflexivity.
Defined.

Lemma validate_step_output_keys_dict step_id keys : forall l items w,
  heap w !! l = Some (ODict items) ->
  validate_step_output_keys step_id keys (VRef l) w =
  (Ok (bool_decide (first_missing keys items = None)),
   {| heap := heap w;
      stdout := stdout w ++
        match first_missing keys items with
        | Some key => [missing_required_warning step_id key]
        | None => []
        end |}).
Proof.
  induction keys as [|key rest IH]; intros l items w Hl.
  - simpl. rewrite app_nil_r. by destruct w.
  - cbn [validate_step_output_keys first_missing]. unfold bind, py_contains.
    rewrite Hl. destruct (items !! key) as [v|] eqn:Hk.
    + rewrite bool_decide_true by eauto. by apply IH.
    + rewrite bool_decide_false by (by intros [? ?]). reflexivity.
Qed.

(** X9: [validate_step_output] never raises, whatever the output is: a value
    that is not a dict gives [False] with the "not a dictionary" warning (the
    membership test that raises for [None] or a number in [validate_output]
    is not reached).  It returns [True] exactly when the output is a dict
    that has every key of the schema, and then prints nothing; on a dict it
    returns the boolean [validate_output] returns. *)
Theorem validate_step_output_never_raises step_id output schema w :
  exists b w',
    validate_step_output step_id output schema w = (Ok b, w') /\
    heap w' = heap w /\
    (b = true <->
     exists l items,
       output = VRef l /\ heap w !! l = Some (ODict items) /\
       forall k, k ∈ map fst schema -> is_Some (items !! k)) /\
    (b = true -> w' = w) /\
    (is_dict (heap w) output = false ->
     b = false /\ stdout w' = stdout w ++ [not_dictionary_warning step_id]) /\
    (is_dict (heap w) output = true ->
     (validate_output schema output w).1 = Ok b).
Proof.
  unfold validate_step_output, is_dict.
  destruct (deref (heap w) output) as [[items|items]|] eqn:Hd.
  - destruct output as [| | | |l]; try discriminate. cbn [deref] in Hd.
    rewrite (validate_step_output_keys_dict _ _ l items w Hd).
    eexists _, _. split; [reflexivity|]. cbn [heap]. split; [reflexivity|].
    split; [|split; [|split]].
    + rewrite bool_decide_eq_true, first_missing_none. split.
      * intros H. by exists l, items.
      * intros (l' & items' & [= <-] & Hl & H). rewrite Hd in Hl.
        by injection Hl as <-.
    + rewrite bool_decide_eq_true. intros ->. rewrite app_nil_r. by destruct w.
    + discriminate.
    + intros _. unfold validate_output.
      by rewrite (validate_output_keys_dict _ l items w Hd).
  - eexists _, _. split; [reflexivity|]. cbn [heap stdout].
    split; [reflexivity|]. split; [|split; [|split]]; try done.
    split; [discriminate|]. intros (l & items' & -> & Hl & _).
    cbn [deref] in Hd. congruence.
  - eexists _, _. split; [reflexivity|]. cbn [heap stdout].
    split; [reflexivity|]. split; [|split; [|split]]; try done.
    split; [discriminate|]. intros (l & items' & -> & Hl & _).
    cbn [deref] in Hd. congruence.
Qed.

(** ** [replace_env_variables] *)

Lemma str_length_app (a b : string) :
  String.length (a +:+ b) = (String.length a + String.length b)%nat.
Proof.
  induction a as [|x a IH]; [reflexivity|].
  rewrite str_app_cons. simpl. by rewrite IH.
Qed.

Lemma prefix_app (a b : string) : String.prefix a (a +:+ b) = true.
Proof.
  induction a as [|x a IH]; [by destruct b|].
  rewrite str_app_cons. cbn [String.prefix].
  by destruct (ascii_dec x x).
Qed.

Lemma prefix_open_brace o c t :
  Ascii.eqb c open_brace = false ->
  String.prefix (String open_brace o) (String c t) = false.
Proof.
  intros Hc. cbn [String.prefix].
  destruct (ascii_dec open_brace c) as [<-|]; [|reflexivity].
  by rewrite Ascii.eqb_refl in Hc.
Qed.

Lemma findall_env_brace_free value : forall skip,
  has_char open_brace value = false -> findall_env_from skip value = [].
Proof.
  induction value as [|c t IH]; intros skip; [reflexivity|].
  cbn [has_char]. intros [Hc Ht]%orb_false_iff. cbn [findall_env_from].
  destruct skip as [|k]; [|by apply IH].
  unfold match_env_here. destruct t as [|c2 rest]; [reflexivity|].
  rewrite Hc. cbn [andb]. by apply IH.
Qed.

Lemma findall_env_skip a : forall b k,
  findall_env_from (String.length a + k) (a +:+ b) = findall_env_from k b.
Proof.
  induction a as [|x a IH]; intros b k; [reflexivity|].
  rewrite str_app_cons. cbn [String.length Nat.add findall_env_from]. apply IH.
Qed.

Lemma str_replace_brace_free o new s :
  has_char open_brace s = false ->
  str_replace_from (String open_brace o) new 0 s = s.
Proof.
  induction s as [|c t IH]; [reflexivity|].
  cbn [has_char]. intros [Hc Ht]%orb_false_iff. cbn [str_replace_from].
  rewrite (prefix_open_brace _ _ _ Hc). by rewrite (IH Ht).
Qed.

Lemma str_replace_skip old new a : forall b k,
  str_replace_from old new (String.length a + k) (a +:+ b) =
  str_replace_from old new k b.
Proof.
  induction a as [|x a IH]; intros b k; [reflexivity|].
  rewrite str_app_cons. cbn [String.length Nat.add str_replace_from]. apply IH.
Qed.

Lemma span_env_name n rest :
  all_env_chars n = true ->
  span_env (n +:+ String close_brace rest) = (n, String close_brace rest).
Proof.
  induction n as [|c t IH]; [reflexivity|].
  cbn [all_env_chars]. intros [Hc Ht]%andb_prop.
  rewrite str_app_cons. cbn [span_env]. by rewrite Hc, (IH Ht).
Qed.

Lemma match_env_here_token n post :
  is_env_name n = true ->
  match_env_here (token n +:+ post) = Some n.
Proof.
  unfold is_env_name. intros [Hne Hn]%andb_prop.
  apply negb_true_iff, bool_decide_eq_false in Hne.
  unfold token. rewrite !str_app_assoc.
  change ("{{" +:+ n +:+ "}}" +:+ post)
    with (String open_brace (String open_brace
            (n +:+ String close_brace (String close_brace post)))).
  unfold match_env_here. cbn [Ascii.eqb andb]. rewrite Ascii.eqb_refl. cbn [andb].
  rewrite (span_env_name _ _ Hn). destruct n; [done|].
  by rewrite Ascii.eqb_refl.
Qed.

Lemma findall_env_single pre n post :
  is_env_name n = true ->
  has_char open_brace pre = false ->
  has_char open_brace post = false ->
  findall_env_from 0 (pre +:+ token n +:+ post) = [n].
Proof.
  intros Hn Hpre Hpost. induction pre as [|c t IH].
  - change (EmptyString +:+ token n +:+ post) with (token n +:+ post).
    pose proof (match_env_here_token n post Hn) as Hm.
    assert (Ht : token n +:+ post =
                 String open_brace (("{" +:+ n +:+ "}}") +:+ post))
      by (unfold token; by rewrite !str_app_assoc).
    rewrite Ht in *. cbn [findall_env_from]. rewrite Hm. f_equal.
    replace (String.length n + 3)%nat
      with (String.length ("{" +:+ n +:+ "}}") + 0)%nat.
    + rewrite findall_env_skip. by apply findall_env_brace_free.
    + rewrite !str_length_app. simpl. lia.
  - cbn [has_char] in Hpre. apply orb_false_iff in Hpre as [Hc Ht].
    rewrite str_app_cons. cbn [findall_env_from].
    assert (Hm : match_env_here (String c (t +:+ token n +:+ post)) = None).
    { unfold match_env_here. destruct (t +:+ token n +:+ post); [reflexivity|].
      by rewrite Hc. }
    rewrite Hm. by apply IH.
Qed.

Lemma str_replace_single pre n post new :
  has_char open_brace pre = false ->
  has_char open_brace post = false ->
  str_replace (token n) new (pre +:+ token n +:+ post) = pre +:+ new +:+ post.
Proof.
  intros Hpre Hpost. unfold str_replace.
  change (token n) with (String open_brace ("{" +:+ n +:+ "}}")).
  set (tail := "{" +:+ n +:+ "}}").
  induction pre as [|c t IH].
  - change (EmptyString +:+ String open_brace tail +:+ post)
      with (String open_brace tail +:+ post).
    change (EmptyString +:+ new +:+ post) with (new +:+ post).
    assert (Hp : String.prefix (String open_brace tail)
                   (String open_brace (tail +:+ post)) = true)
      by (rewrite <- str_app_cons; apply prefix_app).
    rewrite str_app_cons. cbn [str_replace_from]. rewrite Hp. f_equal.
    replace (String.length (String open_brace tail) - 1)%nat
      with (String.length tail + 0)%nat by (simpl; lia).
    rewrite str_replace_skip. by apply str_replace_brace_free.
  - cbn [has_char] in Hpre. apply orb_false_iff in Hpre as [Hc Hpre].
    rewrite !str_app_cons. cbn [str_replace_from].
    rewrite (prefix_open_brace _ _ _ Hc). f_equal.
    by apply IH.
Qed.

(** X10: a configuration none of whose strings holds an opening brace comes
    back from [replace_env_variables] as it is, and nothing is printed: the
    environment plays no part. *)
Theorem replace_env_variables_keeps_literals environ : forall tool_config w,
  brace_free tool_config = true ->
  replace_env_variables environ tool_config w = (Ok tool_config, w).
Proof.
  unfold replace_env_variables.
  induction tool_config as [| | | s | items IH | items IH]
    using template_nested_ind; intros w Hfree; try reflexivity.
  - cbn [brace_free] in Hfree. apply negb_true_iff in Hfree.
    cbn [replace_value]. by rewrite (findall_env_brace_free _ _ Hfree).
  - cbn [replace_value brace_free] in *.
    match goal with |- context [bind (?f items)] => set (go := f) end.
    assert (Hgo : forall w', go items w' = (Ok items, w')).
    { clear w. induction IH as [|[k v] rest Hv _ IHr]; intros w'; [reflexivity|].
      cbn [forallb] in Hfree. apply andb_prop in Hfree as [Hk Hrest].
      cbn [snd] in Hv, Hk. unfold go; cbn; fold go. unfold bind.
      by rewrite (Hv w' Hk), (IHr Hrest). }
    unfold bind. by rewrite Hgo.
  - cbn [replace_value brace_free] in *.
    match goal with |- context [bind (?f items)] => set (go := f) end.
    assert (Hgo : forall w', go items w' = (Ok items, w')).
    { clear w. induction IH as [|v rest Hv _ IHr]; intros w'; [reflexivity|].
      cbn [forallb] in Hfree. apply andb_prop in Hfree as [Hk Hrest].
      unfold go; cbn; fold go. unfold bind.
      by rewrite (Hv w' Hk), (IHr Hrest). }
    unfold bind. by rewrite Hgo.
Qed.

Lemma replace_env_variables_keeps_literals_witness :
  replace_env_variables {[ "API_KEY" := "secret" ]}
    (TDict [("endpoint", TStr "https://api.example.com/v1");
            ("retries", TInt 3);
            ("tags", TList [TStr "API_KEY"; TNone])]) empty_world =
  (Ok (TDict [("endpoint", TStr "https://api.example.com/v1");
              ("retries", TInt 3);
              ("tags", TList [TStr "API_KEY"; TNone])]), empty_world).
Proof.
  apply (replace_env_variables_keeps_literals {[ "API_KEY" := "secret" ]}).
  reflexivity.
Defined.

(** X11: a string made of text without opening brace around one placeholder
    [{{NAME}}] becomes the same text around the value of [NAME]: the text
    around the placeholder is kept (the resolver of step references drops
    it).  A variable that is unset or empty gives the empty string and one
    warning; otherwise nothing is printed. *)
Theorem replace_env_variables_substitutes_in_place environ n pre post w :
  is_env_name n = true ->
  has_char open_brace pre = false ->
  has_char open_brace post = false ->
  replace_env_variables environ (TStr (pre +:+ token n +:+ post)) w =
  (Ok (TStr (pre +:+ getenv_or_empty environ n +:+ post)),
   {| heap := heap w;
      stdout := stdout w ++
        if bool_decide (getenv_or_empty environ n = EmptyString)
        then [env_not_found_warning n] else [] |}).
Proof.
  intros Hn Hpre Hpost. unfold replace_env_variables. cbn [replace_value].
  rewrite (findall_env_single _ _ _ Hn Hpre Hpost). cbn [replace_matches].
  change ("{{" +:+ n +:+ "}}") with (token n).
  rewrite (str_replace_single _ _ _ _ Hpre Hpost). unfold bind.
  case_bool_decide; cbn.
  - reflexivity.
  - rewrite app_nil_r. by destruct w.
Qed.

Lemma replace_env_variables_substitutes_in_place_witness :
  replace_env_variables {[ "API_KEY" := "secret" ]}
    (TStr "Bearer {{API_KEY}} v1") empty_world =
    (Ok (TStr "Bearer secret v1"), empty_world) /\
  replace_env_variables {[ "API_KEY" := "secret" ]}
    (TStr "Bearer {{OTHER_KEY}} v1") empty_world =
    (Ok (TStr "Bearer  v1"),
     {| heap := []; stdout := [env_not_found_warning "OTHER_KEY"] |}).
Proof.
  split.
  - exact (replace_env_variables_substitutes_in_place
             {[ "API_KEY" := "secret" ]} "API_KEY" "Bearer " " v1" empty_world
             eq_refl eq_refl eq_refl).
  - exact (replace_env_variables_substitutes_in_place
             {[ "API_KEY" := "secret" ]} "OTHER_KEY" "Bearer " " v1" empty_world
             eq_refl eq_refl eq_refl).
Defined.

Lemma replace_matches_returns environ matches : forall value w,
  exists r w', replace_matches environ matches value w = (Ok r, w').
Proof.
  induction matches as [|m rest IH]; intros value w.
  - by exists value, w.
  - cbn [replace_matches]. unfold bind. case_bool_decide; cbn; apply IH.
Qed.

(** X12: [replace_env_variables] never raises and keeps the shape of the
    configuration: same keys in the same order, same list lengths, the same
    values that are not strings (it may print warnings). *)
Theorem replace_env_variables_keeps_shape environ : forall tool_config w,
  exists replaced w',
    replace_env_variables environ tool_config w = (Ok replaced, w') /\
    skeleton replaced = skeleton tool_config.
Proof.
  unfold replace_env_variables.
  induction tool_config as [| | | s | items IH | items IH]
    using template_nested_ind; intros w;
    try (eexists _, _; split; reflexivity).
  - cbn [replace_value]. unfold bind.
    destruct (replace_matches_returns environ (findall_env_from 0 s) s w)
      as (r & w' & ->).
    eexists _, _. split; reflexivity.
  - cbn [replace_value].
    match goal with |- context [bind (?f items)] => set (go := f) end.
    assert (Hgo : forall w', exists rs w'',
               go items w' = (Ok rs, w'') /\
               map (fun kv => (fst kv, skeleton (snd kv))) rs =
               map (fun kv => (fst kv, skeleton (snd kv))) items).
    { clear w. induction IH as [|[k v] rest Hv _ IHr]; intros w'.
      - exists [], w'. done.
      - cbn [snd] in Hv. unfold go; cbn; fold go. unfold bind.
        destruct (Hv w') as (v' & w1 & -> & Hs1).
        destruct (IHr w1) as (rs & w2 & -> & Hs2).
        eexists _, _. split; [reflexivity|].
        cbn. by rewrite Hs1, Hs2. }
    unfold bind. destruct (Hgo w) as (rs & w1 & -> & Hs).
    eexists _, _. split; [reflexivity|].
    cbn [skeleton]. by rewrite Hs.
  - cbn [replace_value].
    match goal with |- context [bind (?f items)] => set (go := f) end.
    assert (Hgo : forall w', exists rs w'',
               go items w' = (Ok rs, w'') /\
               map skeleton rs = map skeleton items).
    { clear w. induction IH as [|v rest Hv _ IHr]; intros w'.
      - exists [], w'. done.
      - unfold go; cbn; fold go. unfold bind.
        destruct (Hv w') as (v' & w1 & -> & Hs1).
        destruct (IHr w1) as (rs & w2 & -> & Hs2).
        eexists _, _. split; [reflexivity|].
        cbn. by rewrite Hs1, Hs2. }
    unfold bind. destruct (Hgo w) as (rs & w1 & -> & Hs).
    eexists _, _. split; [reflexivity|].
    cbn [skeleton]. by rewrite Hs.
Qed.

(** ** [validate_api_keys] *)

Lemma collect_missing_keys_filter environ required_keys : forall missing_keys,
  collect_missing_keys environ missing_keys required_keys =
  missing_keys ++
  filter (fun k => getenv_or_empty environ k = EmptyString) required_keys.
Proof.
  induction required_keys as [|key rest IH]; intros missing_keys.
  - cbn. by rewrite app_nil_r.
  - cbn [collect_missing_keys]. case_bool_decide as Hk.
    + rewrite IH, filter_cons_True by done. by rewrite <- app_assoc.
    + rewrite IH, filter_cons_False by done. reflexivity.
Qed.

(** X13: [validate_api_keys] never raises; it returns [True] exactly when
    every required variable is set to a non-empty value, and then prints
    nothing; otherwise it returns [False] after one line that lists, in the
    order given, exactly the keys that are unset or empty. *)
Theorem validate_api_keys_true_iff_all_set environ required_keys w :
  exists b w',
    validate_api_keys environ required_keys w = (Ok b, w') /\
    heap w' = heap w /\
    (b = true <->
     forall k, k ∈ required_keys -> getenv_or_empty environ k <> EmptyString) /\
    (b = true -> w' = w) /\
    (b = false ->
     stdout w' = stdout w ++
       ["Missing required API keys: " +:+
        String.concat ", "
          (filter (fun k => getenv_or_empty environ k = EmptyString)
             required_keys)]).
Proof.
  unfold validate_api_keys. rewrite collect_missing_keys_filter. cbn [app].
  destruct (filter _ required_keys) as [|k0 ks] eqn:Hf.
  - exists true, w. split; [reflexivity|]. split; [reflexivity|].
    split; [|split; [done | discriminate]].
    split; [|done]. intros _ k Hin Hk.
    assert (Hk' : k ∈ filter (fun k => getenv_or_empty environ k = EmptyString)
                    required_keys)
      by (apply list_elem_of_filter; done).
    rewrite Hf in Hk'. by apply elem_of_nil in Hk'.
  - eexists false, _. split; [reflexivity|]. cbn [heap stdout].
    split; [reflexivity|]. split; [|split; [discriminate | done]].
    split; [discriminate|]. intros Hall.
    assert (Hk0 : k0 ∈ filter (fun k => getenv_or_empty environ k = EmptyString)
                    required_keys) by (rewrite Hf; left).
    apply list_elem_of_filter in Hk0 as [Hempty Hin]. by destruct (Hall k0 Hin).
Qed.

(** ** Round trip through the run state *)

Lemma has_close_app (a b : string) :
  has_close (a +:+ b) = has_close a || has_close b.
Proof.
  induction a as [|x a IH]; [reflexivity|].
  rewrite str_app_cons. cbn [has_close]. by rewrite IH, orb_assoc.
Qed.

Lemma split_dot_segment a rest :
  has_char dot a = false ->
  split_dot (a +:+ String dot rest) = a :: split_dot rest.
Proof.
  induction a as [|x a IH].
  - intros _. change (EmptyString +:+ String dot rest) with (String dot rest).
    cbn [split_dot]. by rewrite Ascii.eqb_refl.
  - cbn [has_char]. intros [Hx Ha]%orb_false_iff.
    rewrite str_app_cons. cbn [split_dot]. by rewrite Hx, (IH Ha).
Qed.

Lemma split_dot_single a : has_char dot a = false -> split_dot a = [a].
Proof.
  induction a as [|x a IH]; [reflexivity|].
  cbn [has_char]. intros [Hx Ha]%orb_false_iff.
  cbn [split_dot]. by rewrite Hx, (IH Ha).
Qed.

Lemma re_search_of_token g :
  g <> EmptyString -> has_close g = false -> re_search (token g) = Some g.
Proof.
  intros Hne Hg. pose proof (match_here_token g EmptyString Hne Hg) as Hm.
  rewrite str_app_empty in Hm.
  change (token g) with (String open_brace (String open_brace (g +:+ "}}"))) in *.
  cbn [re_search]. by rewrite Hm.
Qed.

Lemma resolve_reference_to_recorded_key outs cfg step_id second key l items v w :
  is_segment step_id = true ->
  step_id <> EmptyString ->
  step_id <> "config" ->
  is_segment second = true ->
  is_segment key = true ->
  outs !! step_id = Some (VRef l) ->
  heap w !! l = Some (ODict items) ->
  items !! key = Some v ->
  resolve_value outs cfg
    (TStr (token (step_id +:+ "." +:+ second +:+ "." +:+ key))) w = (Ok v, w).
Proof.
  unfold is_segment.
  intros [Hd1 Hc1]%andb_prop Hne Hcfg [Hd2 Hc2]%andb_prop [Hd3 Hc3]%andb_prop
    Ho Hl Hk.
  apply negb_true_iff in Hd1, Hc1, Hd2, Hc2, Hd3, Hc3.
  set (path := step_id +:+ "." +:+ second +:+ "." +:+ key).
  assert (Hsplit : split_dot path = [step_id; second; key]).
  { unfold path. change ("." +:+ second +:+ "." +:+ key)
      with (String dot (second +:+ String dot key)).
    by rewrite (split_dot_segment _ _ Hd1), (split_dot_segment _ _ Hd2),
      (split_dot_single _ Hd3). }
  assert (Hsearch : re_search (token path) = Some path).
  { apply re_search_of_token.
    - unfold path. by destruct step_id.
    - unfold path. rewrite !has_close_app, Hc1, Hc2, Hc3. reflexivity. }
  cbn [resolve_value].
  rewrite (resolve_str_step outs cfg _ _ _ _ _ _ Hsearch Hsplit) by done.
  apply step_walk_stored. cbn [stored_at deref]. by rewrite Hl, Hk.
Qed.

(** ** Further properties of the orchestrator *)

Section OrchestratorExtras.
Variable workflow_config : WorkflowConfig.
Variable load_tools_config : StepSpec -> M world pyval.
Variable ProspectSearchAgent DataEnrichmentAgent ScoringAgent : agent_body.
Variable OutreachContentAgent OutreachExecutorAgent : agent_body.
Variable ResponseTrackerAgent FeedbackTrainerAgent : agent_body.
Variable _print_summary : gmap string pyval -> M world unit.
Variable console : console_handler.

Abbreviation registry :=
  (AGENT_REGISTRY ProspectSearchAgent DataEnrichmentAgent ScoringAgent
     OutreachContentAgent OutreachExecutorAgent ResponseTrackerAgent
     FeedbackTrainerAgent).
Abbreviation node :=
  (node_function workflow_config load_tools_config ProspectSearchAgent
     DataEnrichmentAgent ScoringAgent OutreachContentAgent
     OutreachExecutorAgent ResponseTrackerAgent FeedbackTrainerAgent console).
Abbreviation build :=
  (build_graph workflow_config load_tools_config ProspectSearchAgent
     DataEnrichmentAgent ScoringAgent OutreachContentAgent
     OutreachExecutorAgent ResponseTrackerAgent FeedbackTrainerAgent console).
Abbreviation run_all :=
  (build_and_execute workflow_config load_tools_config ProspectSearchAgent
     DataEnrichmentAgent ScoringAgent OutreachContentAgent
     OutreachExecutorAgent ResponseTrackerAgent FeedbackTrainerAgent
     _print_summary console).
Abbreviation sequence :=
  (run_nodes workflow_config load_tools_config ProspectSearchAgent
     DataEnrichmentAgent ScoringAgent OutreachContentAgent
     OutreachExecutorAgent ResponseTrackerAgent FeedbackTrainerAgent console).

Lemma registry_names name :
  is_Some (registry !! name) <-> name ∈ agent_class_names.
Proof.
  split.
  - intros Hsome. destruct (decide (name ∈ agent_class_names)) as [|Hnot];
      [done|].
    assert (Hnone : registry !! name = None)
      by (by apply not_elem_of_list_to_map_1).
    rewrite Hnone in Hsome. by destruct Hsome.
  - unfold agent_class_names. rewrite !elem_of_cons, elem_of_nil.
    intros [->|[->|[->|[->|[->|[->|[->|[]]]]]]]]; by eexists.
Qed.

(** X14: the registry knows exactly the seven agent class names.  For a
    step that names any other agent, the node raises
    [ValueError("Unknown agent: <name>")] once its three opening lines have
    been logged and the tools have been loaded: no input is resolved, no
    capability runs, nothing more is written, and the run state is as it
    was. *)
Theorem unknown_agent_raises_value_error :
  (forall name,
     is_Some (AGENT_REGISTRY ProspectSearchAgent DataEnrichmentAgent
                ScoringAgent OutreachContentAgent OutreachExecutorAgent
                ResponseTrackerAgent FeedbackTrainerAgent !! name) <->
     name ∈ agent_class_names) /\
  (forall step r tc w1,
     load_tools_config step (node_announced console step (env r)) =
       (Ok tc, w1) ->
     agent step ∉ agent_class_names ->
     node_function workflow_config load_tools_config ProspectSearchAgent
       DataEnrichmentAgent ScoringAgent OutreachContentAgent
       OutreachExecutorAgent ResponseTrackerAgent FeedbackTrainerAgent
       console step r =
     (Raise (ValueError ("Unknown agent: " +:+ agent step)),
      {| state := state r; env := w1 |})).
Proof.
  split; [apply registry_names|].
  intros step r tc w1 Hl Hnot.
  assert (Hnone : registry !! agent step = None).
  { destruct (registry !! agent step) eqn:Hr; [|reflexivity].
    destruct Hnot. apply registry_names. by rewrite Hr. }
  by rewrite node_function_stages, Hl, Hnone.
Qed.

Lemma node_function_cursor step r r' :
  node step r = (Ok tt, r') -> current_step (state r') = id step.
Proof.
  intros Hn. apply node_function_ok_inv in Hn
    as (tc & w1 & body & cfg & w2 & resolved & w3 & items & w4
        & _ & _ & _ & _ & _ & ->).
  reflexivity.
Qed.

Lemma sequence_cursor l : forall r r' z,
  sequence l r = (Ok tt, r') -> last l = Some z ->
  current_step (state r') = id z.
Proof.
  induction l as [|s l IH]; intros r r' z; [discriminate|].
  cbn [run_nodes]. unfold bind.
  destruct (node s r) as [[[]|e] r1] eqn:Hs; [|discriminate].
  destruct l as [|s' l'].
  - intros [= <-] [= <-]. by apply node_function_cursor in Hs.
  - intros Hl Hlast. change (last (s :: s' :: l')) with (last (s' :: l')) in Hlast.
    by apply (IH r1).
Qed.

(** X15: when every step of a non-empty list with distinct ids completes,
    [execute] logs its four closing lines and ends as the summary does: if
    the summary returns, the result is the mapping of step outputs, whose
    keys are exactly the step ids, and the cursor is the id of the last
    step; if the summary raises, [execute] logs the failure and raises that
    exception although every output has been recorded.  The steps run in
    the world the build and the three opening lines of [execute] left. *)
Theorem completed_run_returns_all_outputs r0 r1 :
  steps workflow_config <> [] ->
  NoDup (map id (steps workflow_config)) ->
  run_nodes workflow_config load_tools_config ProspectSearchAgent
    DataEnrichmentAgent ScoringAgent OutreachContentAgent
    OutreachExecutorAgent ResponseTrackerAgent FeedbackTrainerAgent console
    (steps workflow_config)
    {| state := initial_state workflow_config;
       env := execution_announced console
                (graph_logged console (steps workflow_config) (env r0)) |} =
    (Ok tt, r1) ->
  run_all r0 =
    match _print_summary (step_outputs (state r1))
            (execution_reported console (env r1)) with
    | (Ok _, w2) =>
        (Ok (step_outputs (state r1)), {| state := state r1; env := w2 |})
    | (Raise e, w2) =>
        (Raise e,
         {| state := state r1;
            env := logged console ERROR (LogWorkflowFailed e) w2 |})
    end /\
  dom (step_outputs (state r1)) = list_to_set (map id (steps workflow_config)) /\
  Some (current_step (state r1)) = id <$> last (steps workflow_config).
Proof.
  intros Hne Hnd Hrun. split; [|split].
  - destruct (invoke_chain workflow_config load_tools_config
                ProspectSearchAgent DataEnrichmentAgent ScoringAgent
                OutreachContentAgent OutreachExecutorAgent
                ResponseTrackerAgent FeedbackTrainerAgent console (env r0)
                Hne Hnd)
      as (g & Hb & Hg).
    unfold build_and_execute, bind, lift_world. rewrite Hb.
    unfold execute, try_except, bind, set_state, get_state, lift_world, log.
    cbn [state env]. rewrite Hg.
    fold (execution_announced console
            (graph_logged console (steps workflow_config) (env r0))).
    rewrite Hrun. cbn [state env].
    fold (execution_reported console (env r1)).
    destruct (_print_summary (step_outputs (state r1))
                (execution_reported console (env r1)))
      as [[[]|e] w2]; reflexivity.
  - rewrite (sequence_outputs _ _ _ _ _ _ _ _ _ _ _ _ _ Hrun). simpl.
    rewrite dom_empty_L. by rewrite (left_id_L ∅ (∪)).
  - destruct (last (steps workflow_config)) as [z|] eqn:Hlast.
    + cbn. f_equal. by apply (sequence_cursor _ _ _ _ Hrun).
    + by apply last_None in Hlast.
Qed.

(** X16: a graph built from a non-empty step list runs the node functions of
    the steps one after the other in the declared order, each on the state
    the one before left, and stops at the first that raises: [invoke] on the
    built graph is the sequential composition of the steps. *)
Theorem built_graph_runs_steps_in_declared_order g w w' :
  steps workflow_config <> [] ->
  build_graph workflow_config load_tools_config ProspectSearchAgent
    DataEnrichmentAgent ScoringAgent OutreachContentAgent
    OutreachExecutorAgent ResponseTrackerAgent FeedbackTrainerAgent console
    w = (Ok g, w') ->
  forall r,
    invoke g r =
    run_nodes workflow_config load_tools_config ProspectSearchAgent
      DataEnrichmentAgent ScoringAgent OutreachContentAgent
      OutreachExecutorAgent ResponseTrackerAgent FeedbackTrainerAgent console
      (steps workflow_config) r.
Proof.
  intros Hne Hb.
  pose proof (build_graph_ok_distinct workflow_config load_tools_config
                ProspectSearchAgent DataEnrichmentAgent ScoringAgent
                OutreachContentAgent OutreachExecutorAgent
                ResponseTrackerAgent FeedbackTrainerAgent console w g w' Hb)
    as Hnd.
  destruct (invoke_chain workflow_config load_tools_config
              ProspectSearchAgent DataEnrichmentAgent ScoringAgent
              OutreachContentAgent OutreachExecutorAgent
              ResponseTrackerAgent FeedbackTrainerAgent console w Hne Hnd)
    as (g' & Hb' & Hg).
  rewrite Hb in Hb'. by injection Hb' as <- _.
Qed.

(** X17: what a step records can be read by the steps after it: once the
    node of a step has completed, a template [{{<id>.<second>.<key>}}]
    resolves, in the state the node left, to the value the capability
    returned under [key] (the very value, nothing allocated), provided the
    step id is not empty, is not [config], and the id, the second segment
    and the key hold no dot and no closing brace. *)
Theorem step_output_visible_to_later_reference
    step r tc w1 body cfg w2 resolved w3 items w4 second key v cfg' :
  load_tools_config step (node_announced console step (env r)) = (Ok tc, w1) ->
  registry !! agent step = Some body ->
  get_config workflow_config w1 = (Ok cfg, w2) ->
  _resolve_inputs (step_outputs (state r)) cfg (TDict (inputs step)) w2 =
    (Ok resolved, w3) ->
  body step tc resolved (logged console INFO (LogInputs resolved) w3) =
    (Ok items, w4) ->
  is_segment (id step) = true ->
  id step <> EmptyString ->
  id step <> "config" ->
  is_segment second = true ->
  is_segment key = true ->
  items !! key = Some v ->
  exists r',
    node_function workflow_config load_tools_config ProspectSearchAgent
      DataEnrichmentAgent ScoringAgent OutreachContentAgent
      OutreachExecutorAgent ResponseTrackerAgent FeedbackTrainerAgent
      console step r =
      (Ok tt, r') /\
    resolve_value (step_outputs (state r')) cfg'
      (TStr (token (id step +:+ "." +:+ second +:+ "." +:+ key))) (env r') =
    (Ok v, env r').
Proof.
  intros Hl Hr Hc Hi Hb Hs1 Hne Hcfg Hs2 Hs3 Hk.
  eexists. split.
  - rewrite (node_function_executed _ _ _ _ _ _ _ _ _ _ _ _ _ _ _ _ _ _ _
               Hl Hr Hc Hi).
    by rewrite (execute_agent_ok _ _ _ _ _ _ _ Hb).
  - cbn [state env step_outputs].
    apply (resolve_reference_to_recorded_key _ _ _ _ _ (length (heap w4)) items);
      try done.
    + apply lookup_insert_eq.
    + cbn [node_reported logged heap]. by rewrite lookup_app_r, Nat.sub_diag.
Qed.

(** X18: a node changes the run state only by recording its own output.
    When it raises, for whatever reason (the tools, an unknown agent, the
    resolution of the inputs, the capability), the run state is exactly as
    before; when it returns, [step_outputs] has gained or replaced the entry
    of this step id only, the cursor is this step id, and the messages and
    workflow data are untouched. *)
Theorem node_function_changes_only_its_entry step r :
  match
    node_function workflow_config load_tools_config ProspectSearchAgent
      DataEnrichmentAgent ScoringAgent OutreachContentAgent
      OutreachExecutorAgent ResponseTrackerAgent FeedbackTrainerAgent
      console step r
  with
  | (Raise _, r') => state r' = state r
  | (Ok _, r') =>
      exists output,
        state r' =
        {| messages := messages (state r);
           workflow_data := workflow_data (state r);
           current_step := id step;
           step_outputs := <[id step := output]> (step_outputs (state r)) |}
  end.
Proof.
  rewrite node_function_stages.
  destruct (load_tools_config step _) as [[tc|e] w1]; [|reflexivity].
  destruct (registry !! agent step) as [body|]; [|reflexivity].
  destruct (get_config workflow_config w1) as [[cfg|e] w2]; [|reflexivity].
  destruct (_resolve_inputs _ cfg _ w2) as [[resolved|e] w3]; [|reflexivity].
  destruct (execute_agent body step tc resolved _) as [[output|e] w4];
    [|reflexivity].
  by exists output.
Qed.

(** X19: in a run over steps with distinct ids every entry of
    [step_outputs] is written once: what a step has recorded under its id is
    still the entry under that id when the steps after it have completed. *)
Theorem recorded_entry_survives_later_steps pre step post r0 r1 r2 r3 :
  NoDup (map id (pre ++ step :: post)) ->
  run_nodes workflow_config load_tools_config ProspectSearchAgent
    DataEnrichmentAgent ScoringAgent OutreachContentAgent
    OutreachExecutorAgent ResponseTrackerAgent FeedbackTrainerAgent console
    pre r0 =
    (Ok tt, r1) ->
  node_function workflow_config load_tools_config ProspectSearchAgent
    DataEnrichmentAgent ScoringAgent OutreachContentAgent
    OutreachExecutorAgent ResponseTrackerAgent FeedbackTrainerAgent console
    step r1 =
    (Ok tt, r2) ->
  run_nodes workflow_config load_tools_config ProspectSearchAgent
    DataEnrichmentAgent ScoringAgent OutreachContentAgent
    OutreachExecutorAgent ResponseTrackerAgent FeedbackTrainerAgent console
    post r2 =
    (Ok tt, r3) ->
  run_nodes workflow_config load_tools_config ProspectSearchAgent
    DataEnrichmentAgent ScoringAgent OutreachContentAgent
    OutreachExecutorAgent ResponseTrackerAgent FeedbackTrainerAgent console
    (pre ++ step :: post) r0 = (Ok tt, r3) /\
  step_outputs (state r1) !! id step = step_outputs (state r0) !! id step /\
  is_Some (step_outputs (state r2) !! id step) /\
  step_outputs (state r3) !! id step = step_outputs (state r2) !! id step.
Proof.
  intros Hnd Hpre Hstep Hpost.
  rewrite map_app in Hnd. cbn [map] in Hnd.
  apply NoDup_app in Hnd as (_ & Hdisj & Hnd').
  apply NoDup_cons in Hnd' as [Hnotin _].
  split; [|split; [|split]].
  - rewrite (sequence_app workflow_config load_tools_config
               ProspectSearchAgent DataEnrichmentAgent ScoringAgent
               OutreachContentAgent OutreachExecutorAgent
               ResponseTrackerAgent FeedbackTrainerAgent console), Hpre.
    cbn [run_nodes]. unfold bind. by rewrite Hstep.
  - apply (sequence_keeps_other_entries _ _ _ _ _ _ _ _ _ _ _ _ _ _ Hpre).
    intros Hin. apply (Hdisj _ Hin). left.
  - apply node_function_inv in Hstep as [output Ho]. rewrite Ho.
    rewrite lookup_insert_eq. by eexists.
  - by apply (sequence_keeps_other_entries _ _ _ _ _ _ _ _ _ _ _ _ _ _ Hpost).
Qed.

End OrchestratorExtras.

(** ** The further examples, through the theorems *)

Lemma resolve_value_dict_preserves_keys_witness :
  exists v w' l m,
    resolve_value ∅ (VRef 0%nat)
      (TDict [("a", TStr "{{config.x}}"); ("b", TList [TInt 3])]) world_x9 =
      (Ok v, w') /\
    v = VRef l /\
    heap w' !! l = Some (ODict m) /\
    dom m = list_to_set ["a"; "b"].
Proof.
  edestruct (resolve_value_dict_preserves_keys ∅ (VRef 0%nat)
               [("a", TStr "{{config.x}}"); ("b", TList [TInt 3])] world_x9)
    as (l & m & Hv & _ & Hl & Hdom & _).
  - reflexivity.
  - eexists _, _, l, m. split; [reflexivity|].
    split; [exact Hv|]. split; [exact Hl | exact Hdom].
Defined.

Lemma unknown_agent_raises_value_error_witness :
  example_node wf_ABC step_unknown (fresh_run wf_ABC) =
  (Raise (ValueError "Unknown agent: EchoAgent"),
   {| state := initial_state wf_ABC;
      env := {| heap := [ODict ∅];
                stdout :=
                  [plain_console INFO LogRuleNewline empty_world;
                   plain_console INFO (LogExecuting "EchoAgent" "U") empty_world;
                   plain_console INFO LogRule empty_world] |} |}).
Proof.
  apply (proj2 (unknown_agent_raises_value_error wf_ABC no_tools echo_body
                  silent_body failing_body echo_body echo_body echo_body
                  echo_body plain_console)
           step_unknown (fresh_run wf_ABC) (VRef 0%nat)).
  - reflexivity.
  - apply (bool_decide_unpack _). vm_compute. exact I.
Defined.

Lemma completed_run_returns_all_outputs_witness :
  exists outs r,
    example_run wf_AC (fresh_run wf_AC) = (Ok outs, r) /\
    dom outs = list_to_set ["A"; "C"] /\
    current_step (state r) = "C" /\
    drop 24 (stdout (env r)) =
      [plain_console INFO LogRuleNewline empty_world;
       plain_console INFO LogCompleted empty_world;
       plain_console INFO LogDuration empty_world;
       plain_console INFO LogRule empty_world].
Proof.
  edestruct (completed_run_returns_all_outputs wf_AC no_tools echo_body
               silent_body failing_body echo_body echo_body echo_body
               echo_body no_summary plain_console (fresh_run wf_AC))
    as (Hrun & Hdom & Hcur).
  - discriminate.
  - apply (bool_decide_unpack _). vm_compute. exact I.
  - vm_compute. reflexivity.
  - eexists _, _. split; [exact Hrun|]. split; [exact Hdom|].
    split; reflexivity.
Defined.

Lemma built_graph_runs_steps_in_declared_order_witness :
  exists g w',
    build_graph wf_ABC no_tools echo_body silent_body failing_body echo_body
      echo_body echo_body echo_body plain_console empty_world = (Ok g, w') /\
    invoke g (fresh_run wf_ABC) =
    run_nodes wf_ABC no_tools echo_body silent_body failing_body echo_body
      echo_body echo_body echo_body plain_console (steps wf_ABC)
      (fresh_run wf_ABC).
Proof.
  pose proof (build_graph_chain wf_ABC no_tools echo_body silent_body
                failing_body echo_body echo_body echo_body echo_body
                plain_console empty_world
                ltac:(discriminate) example_ids_distinct) as Hb.
  eexists _, _. split; [exact Hb|].
  exact (built_graph_runs_steps_in_declared_order wf_ABC no_tools echo_body
           silent_body failing_body echo_body echo_body echo_body echo_body
           plain_console _ _ _ ltac:(discriminate) Hb (fresh_run wf_ABC)).
Defined.

Lemma step_output_visible_to_later_reference_witness :
  exists r',
    example_node wf_ABC step_A (fresh_run wf_ABC) = (Ok tt, r') /\
    resolve_value (step_outputs (state r')) (VRef 1%nat)
      (TStr "{{A.output.y}}") (env r') = (Ok (VRef 2%nat), env r').
Proof.
  edestruct (step_output_visible_to_later_reference wf_ABC no_tools echo_body
               silent_body failing_body echo_body echo_body echo_body
               echo_body plain_console step_A (fresh_run wf_ABC))
    with (second := "output") (key := "y") (cfg' := VRef 1%nat)
    as (r' & Hnode & Hres).
  - reflexivity.
  - reflexivity.
  - reflexivity.
  - reflexivity.
  - reflexivity.
  - reflexivity.
  - discriminate.
  - discriminate.
  - reflexivity.
  - reflexivity.
  - reflexivity.
  - exists r'. split; [exact Hnode | exact Hres].
Defined.

Lemma recorded_entry_survives_later_steps_witness :
  exists r3,
    run_nodes wf_AC no_tools echo_body silent_body failing_body echo_body
      echo_body echo_body echo_body plain_console [step_A; step_C]
      (fresh_run wf_AC) =
      (Ok tt, r3) /\
    step_outputs (state r3) !! "A" = Some (VRef 3%nat).
Proof.
  edestruct (recorded_entry_survives_later_steps wf_AC no_tools echo_body
               silent_body failing_body echo_body echo_body echo_body
               echo_body plain_console [] step_A [step_C] (fresh_run wf_AC))
    as (Hrun & _ & _ & Hkeep).
  - apply (bool_decide_unpack _). vm_compute. exact I.
  - reflexivity.
  - vm_compute. reflexivity.
  - vm_compute. reflexivity.
  - eexists. split; [exact Hrun|]. exact (eq_trans Hkeep eq_refl).
Defined.
